(** * Stream-Links-Harvester: a shallow embedding and its properties

    The development follows the Python sources module by module:
    - [PyStr]      : the string operations the code relies on
                     ([str.startswith], the substring test [in], truthiness);
    - [Extractor]  : [extractor.py], the ordered extraction pipeline and the
                     validity predicate, over an oracle for the browser page;
    - [Utils]      : [utils.py], [deduplicate_links];
    - [Config]     : [config.py], [load_config] over parsed YAML data;
    - [Limiter]    : [browser_client.py], class [RateLimiter], with the wall
                     clock passed explicitly;
    - [Client]     : [browser_client.py], class [BrowserClient], sequentially
                     and as interleaved steps on the shared client object;
    - [Main]       : [main.py], [process_url].

    Each module of definitions is followed by a module of facts about it.

    Python strings are [string], Python [int] is [Z], the [float] timestamps of
    [time.time()] are idealised as rationals [Q] (no rounding), and a [dict]
    is an association list in insertion order, which is the order Python
    iterates it in. *)

From Stdlib Require Import List ListSet Bool Arith ZArith Lia String Ascii.
From Stdlib Require Import QArith Qminmax Lqa.
From Stdlib Require Import Sorted DecimalString.
Import ListNotations.

Set Warnings "-register-all".

(** ** Exceptions and results *)

(** A raised Python exception.  [except Exception] catches the instances of
    [Exception] only; [asyncio.CancelledError], [KeyboardInterrupt] and the
    like derive from [BaseException] directly and pass through it. *)
Inductive exn : Type :=
| PyException (name : string)
| PyBaseException (name : string).

Inductive result (A : Type) : Type :=
| Ok (a : A)
| Raise (e : exn).
Arguments Ok {A} a.
Arguments Raise {A} e.

Definition bind {A B : Type} (m : result A) (k : A -> result B) : result B :=
  match m with
  | Ok a => k a
  | Raise e => Raise e
  end.

(** [try: body / except Exception: handler]. *)
Definition try_except {A : Type} (body : result A) (handler : string -> result A)
  : result A :=
  match body with
  | Raise (PyException n) => handler n
  | other => other
  end.

Declare Scope py_scope.
Delimit Scope py_scope with py.
Notation "x <- m ;; k" := (bind m (fun x => k))
  (at level 61, m at next level, right associativity) : py_scope.
Notation "' pat <- m ;; k" := (bind m (fun x => match x with pat => k end))
  (at level 61, pat pattern, m at next level, right associativity) : py_scope.

(** ** Python strings *)

Module PyStr.

Open Scope string_scope.

(** [s.startswith(p)] *)
Fixpoint startswith (p s : string) : bool :=
  match p with
  | EmptyString => true
  | String a p' =>
      match s with
      | EmptyString => false
      | String b s' => Ascii.eqb a b && startswith p' s'
      end
  end.

(** [p in s] for two strings: [p] occurs in [s] as a contiguous substring. *)
Fixpoint contains (p s : string) : bool :=
  startswith p s ||
  match s with
  | EmptyString => false
  | String _ s' => contains p s'
  end.

(** Truthiness of a string: the empty string is falsy. *)
Definition truthy (s : string) : bool :=
  match s with
  | EmptyString => false
  | String _ _ => true
  end.

(** Truthiness of an [Optional[str]]: [None] and [""] are falsy. *)
Definition truthy_opt (o : option string) : bool :=
  match o with
  | None => false
  | Some s => truthy s
  end.

(** [any(p in s for p in patterns)] *)
Definition any_in (patterns : list string) (s : string) : bool :=
  existsb (fun p => contains p s) patterns.

(** [s.startswith((p1, p2, ...))] with a tuple of prefixes *)
Definition startswith_any (prefixes : list string) (s : string) : bool :=
  existsb (fun p => startswith p s) prefixes.

(** The propositional readings the boolean tests are checked against. *)
Definition Prefix (p s : string) : Prop := exists rest, s = p ++ rest.
Definition Substring (p s : string) : Prop := exists pre post, s = pre ++ p ++ post.

Lemma startswith_Prefix (p s : string) : startswith p s = true <-> Prefix p s.
Proof.
  revert s. induction p as [|a p IH]; intros s; simpl.
  - split; [intros _; now exists s | reflexivity].
  - destruct s as [|b s].
    + split; [discriminate | intros [r Hr]; discriminate].
    + rewrite andb_true_iff, Ascii.eqb_eq, IH. split.
      * intros [-> [r ->]]. now exists r.
      * intros [r Hr]. simpl in Hr. injection Hr as -> ->. split; [reflexivity | now exists r].
Qed.

Lemma contains_Substring (p s : string) : contains p s = true <-> Substring p s.
Proof.
  induction s as [|b s IH].
  - simpl. rewrite orb_false_r, startswith_Prefix. split.
    + intros [r Hr]. exists "", r. exact Hr.
    + intros [pre [post H]]. destruct pre; [now exists post | discriminate].
  - change (contains p (String b s))
      with (startswith p (String b s) || contains p s).
    rewrite orb_true_iff, startswith_Prefix, IH. split.
    + intros [[r Hr] | [pre [post H]]].
      * exists "", r. exact Hr.
      * exists (String b pre), post. simpl. now rewrite H.
    + intros [pre [post H]]. destruct pre as [|c pre].
      * left. now exists post.
      * right. simpl in H. injection H as _ H. now exists pre, post.
Qed.

Lemma any_in_spec (patterns : list string) (s : string) :
  any_in patterns s = true <-> exists p, In p patterns /\ Substring p s.
Proof.
  unfold any_in. rewrite existsb_exists.
  split; intros [p [Hin H]]; exists p; split; trivial; now apply contains_Substring.
Qed.

Lemma startswith_any_spec (prefixes : list string) (s : string) :
  startswith_any prefixes s = true <-> exists p, In p prefixes /\ Prefix p s.
Proof.
  unfold startswith_any. rewrite existsb_exists.
  split; intros [p [Hin H]]; exists p; split; trivial; now apply startswith_Prefix.
Qed.

End PyStr.

(** ** extractor.py *)

Module Extractor.

Import PyStr.
Open Scope string_scope.
Open Scope py_scope.

(** *** The browser page, as the code sees it

    The code reaches the page only through Playwright calls.  A page is the
    table of their answers: what [wait_for_selector], [query_selector] and
    [query_selector_all] return or raise, and for an element what
    [get_attribute] returns and which page state a [click] leaves behind. *)
Inductive element : Type :=
| Element
    (get_attribute : string -> result (option string))
    (click : result page)
    (el_query_selector_all : string -> result (list element))
with page : Type :=
| Page
    (wait_for_selector : string -> Q -> result (option element))
    (query_selector : string -> result (option element))
    (query_selector_all : string -> result (list element)).

Definition get_attribute (e : element) : string -> result (option string) :=
  match e with Element g _ _ => g end.
Definition click (e : element) : result page :=
  match e with Element _ c _ => c end.
Definition el_query_selector_all (e : element) : string -> result (list element) :=
  match e with Element _ _ q => q end.
Definition wait_for_selector (p : page) : string -> Q -> result (option element) :=
  match p with Page w _ _ => w end.
Definition query_selector (p : page) : string -> result (option element) :=
  match p with Page _ q _ => q end.
Definition query_selector_all (p : page) : string -> result (list element) :=
  match p with Page _ _ q => q end.

(** A [Dict[str, str]] in insertion order. *)
Definition dict : Type := list (string * string).

Definition values (d : dict) : list string := map snd d.
Definition keys (d : dict) : list string := map fst d.

(** [d[k] = v]: an existing key keeps its position, a new one goes last. *)
Fixpoint setitem (d : dict) (k v : string) : dict :=
  match d with
  | [] => [(k, v)]
  | (k', v') :: d' =>
      if String.eqb k' k then (k', v) :: d' else (k', v') :: setitem d' k v
  end.

(** *** _is_valid_download_url *)

Definition valid_prefixes : list string := ["http://"; "https://"].

Definition valid_patterns : list string :=
  [".mp4"; ".m3u8"; ".mpd"; "/media/"; "/video/"; "stream"; "download"].

Definition _is_valid_download_url (url : string) : bool :=
  if negb (truthy url) then false
  else if negb (startswith_any valid_prefixes url) then false
  else if negb (any_in valid_patterns url) then false
  else true.

(** *** _is_iframe_video_source *)

Definition video_hosts : list string :=
  ["youtube.com/embed"; "player.vimeo.com"; "dailymotion.com/embed";
   "streamable.com/e"; "jwplayer"; "brightcove"; "vidyard"; "wistia"; "videojs"].

Definition _is_iframe_video_source (url : string) : bool :=
  if negb (truthy url) then false else any_in video_hosts url.

(** [x and f(x)] for an [Optional[str]] [x], as a condition. *)
Definition and_valid (x : option string) (f : string -> bool) : bool :=
  match x with
  | Some s => truthy s && f s
  | None => false
  end.

(** *** _check_for_popup_link *)

Definition popup_selectors : list string :=
  ["a.download-link"; "a[download]"; ".modal a[href*='.mp4']";
   ".popup a[href*='download']"].

(** One iteration of the loop: [Ok (Some href)] is the [return href],
    [Ok None] falls through to the next selector. *)
Definition popup_try (p : page) (selector : string) : result (option string) :=
  try_except
    (element <- query_selector p selector ;;
     match element with
     | Some el =>
         href <- get_attribute el "href" ;;
         if and_valid href _is_valid_download_url then Ok href else Ok None
     | None => Ok None
     end)
    (fun _ => Ok None).

Fixpoint popup_loop (p : page) (selectors : list string) : result (option string) :=
  match selectors with
  | [] => Ok None
  | selector :: rest =>
      r <- popup_try p selector ;;
      match r with
      | Some href => Ok (Some href)
      | None => popup_loop p rest
      end
  end.

Definition _check_for_popup_link (p : page) : result (option string) :=
  popup_loop p popup_selectors.

(** *** _try_find_download_link *)

Definition selectors : list string :=
  ["a.download-button"; "a[data-download]"; "a.video-download";
   "a[href*='download']"; "a[href*='.mp4']"; "a[href*='.m3u8']";
   "a[href*='.mpd']"; "button.download-button"; "[data-download-url]";
   "[data-video-url]"].

(** [timeout * 1000 / len(selectors)] *)
Definition selector_timeout (timeout : Z) : Q :=
  inject_Z (timeout * 1000) / inject_Z (Z.of_nat (List.length selectors)).

(** The body of the [try] for one selector.  A click changes the page, so the
    page is passed on together with the value: [(p', Some url)] is a [return
    url], [(p', None)] goes on to the next selector with the page [p']. *)
Definition selector_body (p : page) (timeout : Z) (selector : string)
  : result (page * option string) :=
  element <- wait_for_selector p selector (selector_timeout timeout) ;;
  match element with
  | Some el =>
      href <- get_attribute el "href" ;;
      if and_valid href _is_valid_download_url then Ok (p, href) else
      data_url <- get_attribute el "data-download-url" ;;
      if and_valid data_url _is_valid_download_url then Ok (p, data_url) else
      data_video <- get_attribute el "data-video-url" ;;
      if and_valid data_video _is_valid_download_url then Ok (p, data_video) else
      if contains "button" selector then
        p' <- click el ;;
        popup_url <- _check_for_popup_link p' ;;
        if truthy_opt popup_url then Ok (p', popup_url) else Ok (p', None)
      else Ok (p, None)
  | None => Ok (p, None)
  end.

(** [except Exception as e: logger.debug(...)]: the loop goes on.  The only
    statement after the click that can raise is the popup check, which
    swallows every [Exception] itself, so a caught exception always finds the
    page as it was before the iteration. *)
Definition selector_try (p : page) (timeout : Z) (selector : string)
  : result (page * option string) :=
  try_except (selector_body p timeout selector) (fun _ => Ok (p, None)).

Fixpoint selector_loop (p : page) (timeout : Z) (sels : list string)
  : result (page * option string) :=
  match sels with
  | [] => Ok (p, None)
  | selector :: rest =>
      '(p', r) <- selector_try p timeout selector ;;
      match r with
      | Some url => Ok (p', Some url)
      | None => selector_loop p' timeout rest
      end
  end.

Definition _try_find_download_link (p : page) (timeout : Z)
  : result (page * option string) :=
  selector_loop p timeout selectors.

(** *** _analyze_xhr_responses *)

Definition video_patterns : list string :=
  [".mp4"; ".m3u8"; ".mpd"; "/media/"; "/video/"; "stream"].

Fixpoint analyze_loop (urls : list string) : option string :=
  match urls with
  | [] => None
  | url :: rest =>
      if any_in video_patterns url then
        if _is_valid_download_url url then Some url else analyze_loop rest
      else analyze_loop rest
  end.

Definition _analyze_xhr_responses (xhr_responses : dict) : option string :=
  analyze_loop (values xhr_responses).

(** *** _extract_from_video_source *)

Fixpoint source_loop (sources : list element) : result (option string) :=
  match sources with
  | [] => Ok None
  | source :: rest =>
      src <- get_attribute source "src" ;;
      if and_valid src _is_valid_download_url then Ok src else source_loop rest
  end.

Fixpoint video_loop (videos : list element) : result (option string) :=
  match videos with
  | [] => Ok None
  | video :: rest =>
      src <- get_attribute video "src" ;;
      if and_valid src _is_valid_download_url then Ok src else
      source_elements <- el_query_selector_all video "source" ;;
      r <- source_loop source_elements ;;
      match r with
      | Some s => Ok (Some s)
      | None => video_loop rest
      end
  end.

Definition _extract_from_video_source (p : page) : result (option string) :=
  video_elements <- query_selector_all p "video" ;;
  video_loop video_elements.

(** *** _extract_from_iframe *)

Fixpoint iframe_loop (iframes : list element) : result (option string) :=
  match iframes with
  | [] => Ok None
  | iframe :: rest =>
      src <- get_attribute iframe "src" ;;
      if and_valid src _is_iframe_video_source then Ok src else iframe_loop rest
  end.

Definition _extract_from_iframe (p : page) : result (option string) :=
  iframe_elements <- query_selector_all p "iframe" ;;
  iframe_loop iframe_elements.

(** *** extract_download_url

    [xhr_responses] is read when the static-selector scan has returned; the
    caller passes the contents the shared dictionary has at that moment. *)
Definition extract_download_url (p : page) (xhr_responses : dict) (timeout : Z)
  : result (option string) :=
  '(p1, download_url) <- _try_find_download_link p timeout ;;
  if truthy_opt download_url then Ok download_url else
  let download_url := _analyze_xhr_responses xhr_responses in
  if truthy_opt download_url then Ok download_url else
  download_url <- _extract_from_video_source p1 ;;
  if truthy_opt download_url then Ok download_url else
  download_url <- _extract_from_iframe p1 ;;
  if truthy_opt download_url then Ok download_url else
  Ok None.

End Extractor.

(** ** Properties of extractor.py *)

Module ExtractorFacts.

Import PyStr Extractor.
Open Scope string_scope.

Lemma truthy_prefix_nonempty (p s : string) :
  truthy p = true -> Prefix p s -> truthy s = true.
Proof.
  intros Hp [r ->]. destruct p; [discriminate | reflexivity].
Qed.

Lemma valid_truthy (url : string) :
  _is_valid_download_url url = true -> truthy url = true.
Proof.
  unfold _is_valid_download_url. now destruct (truthy url).
Qed.

Lemma and_valid_true (x : option string) (f : string -> bool) :
  and_valid x f = true -> exists s, x = Some s /\ truthy s = true /\ f s = true.
Proof.
  destruct x as [s|]; simpl; [| discriminate].
  intros H. apply andb_true_iff in H. now exists s.
Qed.

(** What a loop hands back is something its test accepted. *)
Definition accepted (f : string -> bool) (r : option string) : Prop :=
  forall u, r = Some u -> truthy u = true /\ f u = true.

Lemma accepted_None (f : string -> bool) : accepted f None.
Proof. intros u H. discriminate H. Qed.

Lemma accepted_and_valid (f : string -> bool) (x : option string) :
  and_valid x f = true -> accepted f x.
Proof.
  intros H u ->. apply and_valid_true in H.
  destruct H as [s [E H]]. now injection E as <-.
Qed.

Lemma accepted_truthy (f : string -> bool) (r : option string) (u : string) :
  accepted f r -> r = Some u -> truthy_opt r = true.
Proof. intros H E. destruct (H u E) as [Ht _]. now subst r. Qed.

Create HintDb extractor.
#[local] Hint Resolve accepted_None accepted_and_valid : extractor.

(** Splits a hypothesis [H] about a sequence of binds and tests into the
    paths through it. *)
Ltac paths H :=
  repeat match type of H with
    | context [match ?x with _ => _ end] =>
        let E := fresh "E" in
        destruct x eqn:E; try discriminate H; try paths E
    end.

(** Uses up the equations between constructors that [paths] leaves. *)
Ltac tidy :=
  repeat match goal with
    | H : Ok _ = Ok _ |- _ => injection H; clear H; intros; subst
    | H : Some _ = Some _ |- _ => injection H; clear H; intros; subst
    | H : (_, _) = (_, _) |- _ => injection H; clear H; intros; subst
    | H : Ok _ = Raise _ |- _ => discriminate H
    | H : Raise _ = Ok _ |- _ => discriminate H
    | H : Some _ = None |- _ => discriminate H
    | H : None = Some _ |- _ => discriminate H
    end.

Lemma popup_loop_accepted (p : page) (sels : list string) (r : option string) :
  popup_loop p sels = Ok r -> accepted _is_valid_download_url r.
Proof.
  revert r. induction sels as [|sel rest IH]; cbn [popup_loop]; intros r H.
  - injection H as <-. auto with extractor.
  - unfold bind in H. destruct (popup_try p sel) as [[href|]|e] eqn:Et;
      try discriminate H.
    + injection H as <-. unfold popup_try, try_except, bind in Et.
      paths Et; tidy; auto with extractor.
    + now apply IH.
Qed.

Lemma selector_body_accepted (p p' : page) (timeout : Z) (sel : string)
      (r : option string) :
  selector_body p timeout sel = Ok (p', r) -> accepted _is_valid_download_url r.
Proof.
  unfold selector_body, bind. intros H.
  paths H; tidy; eauto with extractor.
  eapply popup_loop_accepted. eassumption.
Qed.

Lemma selector_loop_accepted (sels : list string) (p p' : page) (timeout : Z)
      (r : option string) :
  selector_loop p timeout sels = Ok (p', r) -> accepted _is_valid_download_url r.
Proof.
  revert p. induction sels as [|sel rest IH]; cbn [selector_loop]; intros p H.
  - injection H as _ <-. auto with extractor.
  - unfold bind in H.
    destruct (selector_try p timeout sel) as [[q [url|]]|e] eqn:Et;
      try discriminate H.
    + injection H as _ <-. unfold selector_try, try_except in Et.
      destruct (selector_body p timeout sel) as [[q' r']|[n|n]] eqn:Eb;
        try discriminate Et.
      * injection Et as _ ->. eapply selector_body_accepted. eassumption.
    + eapply IH. eassumption.
Qed.

Lemma try_find_accepted (p p' : page) (timeout : Z) (r : option string) :
  _try_find_download_link p timeout = Ok (p', r) ->
  accepted _is_valid_download_url r.
Proof. apply selector_loop_accepted. Qed.

Lemma analyze_loop_sound (urls : list string) (u : string) :
  analyze_loop urls = Some u ->
  In u urls /\ any_in video_patterns u = true /\ _is_valid_download_url u = true.
Proof.
  induction urls as [|url rest IH]; cbn [analyze_loop In]; [discriminate |].
  destruct (any_in video_patterns url) eqn:Ep.
  - destruct (_is_valid_download_url url) eqn:Ev.
    + intros H. injection H as <-. auto.
    + intros H. destruct (IH H) as [? ?]. auto.
  - intros H. destruct (IH H) as [? ?]. auto.
Qed.

Lemma analyze_accepted (xhr : dict) :
  accepted _is_valid_download_url (_analyze_xhr_responses xhr).
Proof.
  intros u H. apply analyze_loop_sound in H. destruct H as [_ [_ Hv]].
  split; [now apply valid_truthy | assumption].
Qed.

Lemma source_loop_accepted (sources : list element) (r : option string) :
  source_loop sources = Ok r -> accepted _is_valid_download_url r.
Proof.
  induction sources as [|src rest IH]; cbn [source_loop]; intros H.
  - injection H as <-. auto with extractor.
  - unfold bind in H. paths H; [injection H as <- |]; auto with extractor.
Qed.

Lemma video_loop_accepted (videos : list element) (r : option string) :
  video_loop videos = Ok r -> accepted _is_valid_download_url r.
Proof.
  induction videos as [|v rest IH]; cbn [video_loop]; intros H.
  - injection H as <-. auto with extractor.
  - unfold bind in H.
    destruct (get_attribute v "src") as [src|e]; try discriminate H.
    destruct (and_valid src _is_valid_download_url) eqn:Ea.
    + injection H as <-. auto with extractor.
    + destruct (el_query_selector_all v "source") as [srcs|e];
        try discriminate H.
      destruct (source_loop srcs) as [[s|]|e] eqn:Es; try discriminate H.
      * injection H as <-. eapply source_loop_accepted. eassumption.
      * auto.
Qed.

Lemma video_source_accepted (p : page) (r : option string) :
  _extract_from_video_source p = Ok r -> accepted _is_valid_download_url r.
Proof.
  unfold _extract_from_video_source, bind.
  destruct (query_selector_all p "video"); [apply video_loop_accepted | discriminate].
Qed.

Lemma iframe_loop_accepted (iframes : list element) (r : option string) :
  iframe_loop iframes = Ok r -> accepted _is_iframe_video_source r.
Proof.
  induction iframes as [|f rest IH]; cbn [iframe_loop]; intros H.
  - injection H as <-. auto with extractor.
  - unfold bind in H. paths H; [injection H as <- |]; auto with extractor.
Qed.

Lemma iframe_accepted (p : page) (r : option string) :
  _extract_from_iframe p = Ok r -> accepted _is_iframe_video_source r.
Proof.
  unfold _extract_from_iframe, bind.
  destruct (query_selector_all p "iframe"); [apply iframe_loop_accepted | discriminate].
Qed.

(** The validity predicate, read as a statement about prefixes and
    substrings. *)
Lemma valid_url_iff (url : string) :
  _is_valid_download_url url = true <->
  (Prefix "http://" url \/ Prefix "https://" url) /\
  (exists m, In m valid_patterns /\ Substring m url).
Proof.
  unfold _is_valid_download_url.
  rewrite <- any_in_spec.
  assert (Hp : startswith_any valid_prefixes url = true <->
               Prefix "http://" url \/ Prefix "https://" url).
  { rewrite startswith_any_spec. unfold valid_prefixes. split.
    - intros [p [[<- | [<- | []]] H]]; auto.
    - intros [H | H]; eexists; (split; [| exact H]); simpl; auto. }
  rewrite <- Hp.
  destruct (truthy url) eqn:Ht; cbn [negb].
  - destruct (startswith_any valid_prefixes url); cbn [negb];
      destruct (any_in valid_patterns url); cbn [negb];
      (split; [intros H; try discriminate H; now split
              | intros [H1 H2]; try discriminate H1; try discriminate H2; reflexivity]).
  - split; [discriminate |]. intros [H _]. apply Hp in H.
    destruct H as [H | H];
      apply truthy_prefix_nonempty in H; solve [congruence | reflexivity].
Qed.

(** C6. The validity predicate holds of a string exactly when the string
    begins with [http://] or [https://] and one of the seven markers [.mp4],
    [.m3u8], [.mpd], [/media/], [/video/], [stream], [download] occurs in it.
    So a string without such a scheme, or without any marker, is rejected;
    and ["https://cdn.example.com/video/abc.mp4"] is accepted. *)
Theorem is_valid_download_url_spec :
  (forall url : string,
      _is_valid_download_url url = true <->
      (Prefix "http://" url \/ Prefix "https://" url) /\
      (exists m, In m [".mp4"; ".m3u8"; ".mpd"; "/media/"; "/video/"; "stream";
                       "download"] /\ Substring m url)) /\
  (forall url : string,
      ~ (Prefix "http://" url \/ Prefix "https://" url) ->
      _is_valid_download_url url = false) /\
  (forall url : string,
      (forall m, In m [".mp4"; ".m3u8"; ".mpd"; "/media/"; "/video/"; "stream";
                       "download"] -> ~ Substring m url) ->
      _is_valid_download_url url = false) /\
  _is_valid_download_url "https://cdn.example.com/video/abc.mp4" = true.
Proof.
  split; [exact valid_url_iff |]. split; [| split].
  - intros url Hn. destruct (_is_valid_download_url url) eqn:E; trivial.
    apply valid_url_iff in E. tauto.
  - intros url Hn. destruct (_is_valid_download_url url) eqn:E; trivial.
    apply valid_url_iff in E. destruct E as [_ [m [Hin Hs]]]. now apply Hn in Hs.
  - reflexivity.
Qed.

(** A page on which the first static selector finds a link with a valid
    [href], next to a captured response that the analysis would accept. *)
Definition link_element : element :=
  Element
    (fun name =>
       if String.eqb name "href"
       then Ok (Some "https://site.example/download/clip.mp4")
       else Ok None)
    (Raise (PyException "Error"))
    (fun _ => Ok []).

Definition link_page : page :=
  Page
    (fun selector _ =>
       if String.eqb selector "a.download-button" then Ok (Some link_element)
       else Raise (PyException "TimeoutError"))
    (fun _ => Ok None)
    (fun _ => Ok []).

Definition captured_manifest : dict := [("https://x/y.m3u8", "https://x/y.m3u8")].

(** C5. The pipeline tries the static-selector scan, the captured-response
    analysis, the media-element scan and the embedded-frame scan in this
    order and returns the first result found; a strategy is consulted only
    when all earlier ones found nothing.  In particular, when the
    static-selector scan finds a URL it is the result, also when the
    captured-response analysis would find one.  Every result is non-empty
    and passed the test of its strategy. *)
Theorem extraction_order (p p1 : page) (xhr : dict) (timeout : Z)
        (r1 : option string) :
  _try_find_download_link p timeout = Ok (p1, r1) ->
  (forall u1 u2, r1 = Some u1 -> _analyze_xhr_responses xhr = Some u2 ->
     extract_download_url p xhr timeout = Ok (Some u1)) /\
  (forall u1, r1 = Some u1 -> extract_download_url p xhr timeout = Ok (Some u1)) /\
  (forall u2, r1 = None -> _analyze_xhr_responses xhr = Some u2 ->
     extract_download_url p xhr timeout = Ok (Some u2)) /\
  (forall u3, r1 = None -> _analyze_xhr_responses xhr = None ->
     _extract_from_video_source p1 = Ok (Some u3) ->
     extract_download_url p xhr timeout = Ok (Some u3)) /\
  (forall u4, r1 = None -> _analyze_xhr_responses xhr = None ->
     _extract_from_video_source p1 = Ok None ->
     _extract_from_iframe p1 = Ok (Some u4) ->
     extract_download_url p xhr timeout = Ok (Some u4)) /\
  (r1 = None -> _analyze_xhr_responses xhr = None ->
     _extract_from_video_source p1 = Ok None ->
     _extract_from_iframe p1 = Ok None ->
     extract_download_url p xhr timeout = Ok None) /\
  (forall u, extract_download_url p xhr timeout = Ok (Some u) ->
     truthy u = true /\
     (_is_valid_download_url u = true \/ _is_iframe_video_source u = true)).
Proof.
  intros H1.
  pose proof (try_find_accepted _ _ _ _ H1) as A1.
  pose proof (analyze_accepted xhr) as A2.
  assert (S1 : forall u1, r1 = Some u1 ->
                 extract_download_url p xhr timeout = Ok (Some u1)).
  { intros u1 E. unfold extract_download_url. rewrite H1. cbn [bind].
    rewrite (accepted_truthy _ _ _ A1 E). now rewrite E. }
  assert (S2 : forall u2, r1 = None -> _analyze_xhr_responses xhr = Some u2 ->
                 extract_download_url p xhr timeout = Ok (Some u2)).
  { intros u2 E1 E2. unfold extract_download_url. rewrite H1. cbn [bind].
    rewrite E1. cbn [truthy_opt]. rewrite (accepted_truthy _ _ _ A2 E2).
    now rewrite E2. }
  split; [intros u1 u2 E _; now apply S1 |].
  split; [exact S1 |]. split; [exact S2 |].
  split.
  { intros u3 E1 E2 E3. unfold extract_download_url. rewrite H1. cbn [bind].
    rewrite E1, E2, E3. cbn [bind].
    now rewrite (accepted_truthy _ _ _ (video_source_accepted _ _ E3) eq_refl). }
  split.
  { intros u4 E1 E2 E3 E4. unfold extract_download_url. rewrite H1. cbn [bind].
    rewrite E1, E2, E3, E4. cbn [bind].
    now rewrite (accepted_truthy _ _ _ (iframe_accepted _ _ E4) eq_refl). }
  split.
  { intros E1 E2 E3 E4. unfold extract_download_url. rewrite H1. cbn [bind].
    now rewrite E1, E2, E3, E4. }
  intros u H. unfold extract_download_url in H. rewrite H1 in H. cbn [bind] in H.
  destruct (truthy_opt r1) eqn:T1.
  { injection H as ->. destruct (A1 u eq_refl). auto. }
  destruct (truthy_opt (_analyze_xhr_responses xhr)) eqn:T2.
  { injection H as H. destruct (A2 u H). auto. }
  destruct (_extract_from_video_source p1) as [r3|e] eqn:E3;
    [| discriminate H]. cbn [bind] in H.
  destruct (truthy_opt r3) eqn:T3.
  { injection H as ->. pose proof (video_source_accepted _ _ E3) as A3.
    destruct (A3 u eq_refl). auto. }
  destruct (_extract_from_iframe p1) as [r4|e] eqn:E4;
    [| discriminate H]. cbn [bind] in H.
  destruct (truthy_opt r4) eqn:T4; [| discriminate H].
  injection H as ->. pose proof (iframe_accepted _ _ E4) as A4.
  destruct (A4 u eq_refl). auto.
Qed.

Lemma extraction_order_witness :
  _try_find_download_link link_page 15
    = Ok (link_page, Some "https://site.example/download/clip.mp4") /\
  _analyze_xhr_responses captured_manifest = Some "https://x/y.m3u8" /\
  extract_download_url link_page captured_manifest 15
    = Ok (Some "https://site.example/download/clip.mp4").
Proof.
  assert (H : _try_find_download_link link_page 15
              = Ok (link_page, Some "https://site.example/download/clip.mp4"))
    by reflexivity.
  split; [exact H |]. split; [reflexivity |].
  exact (proj1 (extraction_order link_page link_page captured_manifest 15 _ H)
           "https://site.example/download/clip.mp4" "https://x/y.m3u8"
           eq_refl eq_refl).
Defined.

End ExtractorFacts.

(** ** utils.py *)

Module Utils.

Import PyStr.
Open Scope string_scope.
Open Scope list_scope.

(** The loop of [deduplicate_links]: [seen] is the Python set, [result] the
    list being appended to. *)
Fixpoint dedup_loop (links : list string) (seen : set string)
         (result : list string) : list string :=
  match links with
  | [] => result
  | link :: rest =>
      if truthy link && negb (set_mem string_dec link seen)
      then dedup_loop rest (set_add string_dec link seen) (result ++ [link])
      else dedup_loop rest seen result
  end.

Definition deduplicate_links (links : list string) : list string :=
  dedup_loop links (empty_set string) [].

(** The specification's reading of deduplication, kept apart from the code:
    an entry of the input stays exactly when its value does not occur at an
    earlier position. *)
Fixpoint first_occurrences_from (before l : list string) : list string :=
  match l with
  | [] => []
  | x :: xs =>
      if existsb (String.eqb x) before
      then first_occurrences_from (before ++ [x]) xs
      else x :: first_occurrences_from (before ++ [x]) xs
  end.

Definition first_occurrences (l : list string) : list string :=
  first_occurrences_from [] l.

End Utils.

Module UtilsFacts.

Import PyStr Utils.
Open Scope string_scope.
Open Scope list_scope.

Lemma existsb_eqb_In (x : string) (l : list string) :
  existsb (String.eqb x) l = true <-> In x l.
Proof.
  rewrite existsb_exists. split.
  - intros [y [Hin E]]. apply String.eqb_eq in E. now subst.
  - intros H. exists x. split; [assumption | apply String.eqb_refl].
Qed.

Lemma set_mem_In (x : string) (s : set string) :
  set_mem string_dec x s = true <-> In x s.
Proof.
  split; [apply set_mem_correct1 | apply set_mem_correct2].
Qed.

Lemma bool_eq_iff (a b : bool) : (a = true <-> b = true) -> a = b.
Proof. destruct a, b; intuition congruence. Qed.

(** [seen] and the list of earlier entries agree on non-empty strings. *)
Definition tracks (seen : set string) (before : list string) : Prop :=
  forall x, truthy x = true -> (In x seen <-> In x before).

Lemma tracks_add (seen : set string) (before : list string) (link : string) :
  tracks seen before ->
  tracks (set_add string_dec link seen) (before ++ [link]).
Proof.
  intros T x Hx. rewrite set_add_iff, in_app_iff. simpl.
  specialize (T x Hx). intuition.
Qed.

Lemma tracks_skip (seen : set string) (before : list string) (link : string) :
  tracks seen before -> (truthy link = true -> In link seen) ->
  tracks seen (before ++ [link]).
Proof.
  intros T Hl x Hx. rewrite in_app_iff. simpl.
  specialize (T x Hx). split; [tauto |].
  intros [H | [<- | []]]; [tauto | auto].
Qed.

Lemma dedup_loop_spec (links : list string) :
  forall (seen : set string) (before result : list string),
    tracks seen before ->
    dedup_loop links seen result
    = result ++ first_occurrences_from before (filter truthy links).
Proof.
  induction links as [|link rest IH]; intros seen before result T.
  - simpl. now rewrite app_nil_r.
  - cbn [dedup_loop filter]. destruct (truthy link) eqn:Ht; cbn [andb].
    + cbn [first_occurrences_from].
      assert (Hm : set_mem string_dec link seen
                   = existsb (String.eqb link) before).
      { apply bool_eq_iff. rewrite set_mem_In, existsb_eqb_In. now apply T. }
      rewrite <- Hm. destruct (set_mem string_dec link seen) eqn:Em; cbn [negb].
      * apply IH. apply tracks_skip; trivial.
        intros _. now apply set_mem_In.
      * rewrite (IH _ (before ++ [link])) by now apply tracks_add.
        now rewrite <- app_assoc.
    + rewrite (IH seen before result T). reflexivity.
Qed.

Lemma first_occurrences_from_In (l before : list string) (u : string) :
  In u (first_occurrences_from before l) <-> In u l /\ ~ In u before.
Proof.
  revert before. induction l as [|x xs IH]; intros before; simpl.
  - tauto.
  - destruct (existsb (String.eqb x) before) eqn:E.
    + apply existsb_eqb_In in E. rewrite IH, in_app_iff. simpl.
      split.
      * intros [H1 H2]. split; [tauto |]. tauto.
      * intros [[-> | H1] H2]; [tauto |]. split; [assumption |].
        intros [H | [-> | []]]; tauto.
    + assert (Hn : ~ In x before).
      { intros H. apply existsb_eqb_In in H. congruence. }
      simpl. rewrite IH, in_app_iff. simpl. split.
      * intros [<- | [H1 H2]]; [tauto |]. split; [tauto |]. tauto.
      * intros [[-> | H1] H2]; [tauto |].
        destruct (string_dec x u) as [-> | Hne]; [tauto |]. right.
        split; [assumption |]. intros [H | [H | []]]; tauto.
Qed.

Lemma first_occurrences_from_NoDup (l before : list string) :
  NoDup (first_occurrences_from before l).
Proof.
  revert before. induction l as [|x xs IH]; intros before; simpl.
  - constructor.
  - destruct (existsb (String.eqb x) before); [apply IH |].
    constructor; [| apply IH].
    rewrite first_occurrences_from_In, in_app_iff. simpl. tauto.
Qed.

Lemma truthy_nonempty (u : string) : truthy u = true <-> u <> "".
Proof. destruct u; simpl; split; congruence. Qed.

(** The claim as stated fails on an input with an empty string: the value
    [""] occurs in the input and not once in the output. *)
Lemma deduplicate_links_drops_empty :
  In "" ["a"; ""; "b"] /\
  count_occ string_dec (deduplicate_links ["a"; ""; "b"]) "" = 0%nat /\
  deduplicate_links ["a"; ""; "b"] <> first_occurrences ["a"; ""; "b"].
Proof.
  split; [simpl; auto |]. split; [reflexivity |].
  vm_compute. discriminate.
Qed.

(** C9 (amended). Deduplication drops the empty strings and returns, of the
    others, the first occurrences in their original order: no value occurs
    twice in the output, the values of the output are the non-empty values
    of the input, and on an input without empty strings the output is the
    sublist of first occurrences.  ["a","b","a","c"] gives ["a","b","c"]. *)
Theorem deduplicate_links_spec (links : list string) :
  deduplicate_links links = first_occurrences (filter truthy links) /\
  NoDup (deduplicate_links links) /\
  (forall u, In u (deduplicate_links links) <-> In u links /\ u <> "") /\
  ((forall u, In u links -> u <> "") ->
   deduplicate_links links = first_occurrences links) /\
  deduplicate_links ["a"; "b"; "a"; "c"] = ["a"; "b"; "c"].
Proof.
  assert (E : deduplicate_links links = first_occurrences (filter truthy links)).
  { unfold deduplicate_links. rewrite (dedup_loop_spec links _ [] []).
    - reflexivity.
    - intros x _. simpl. tauto. }
  split; [exact E |]. rewrite E. unfold first_occurrences.
  split; [apply first_occurrences_from_NoDup |].
  split; [| split].
  - intros u. rewrite first_occurrences_from_In, filter_In, truthy_nonempty.
    simpl. tauto.
  - intros Hne. f_equal. apply forallb_filter_id. apply forallb_forall.
    intros u Hu. apply truthy_nonempty. now apply Hne.
  - reflexivity.
Qed.

Lemma deduplicate_links_spec_witness :
  (forall u, In u ["a"; "b"; "a"; "c"] -> u <> "") /\
  deduplicate_links ["a"; "b"; "a"; "c"] = first_occurrences ["a"; "b"; "a"; "c"].
Proof.
  assert (H : forall u, In u ["a"; "b"; "a"; "c"] -> u <> "").
  { simpl. intros u [<- | [<- | [<- | [<- | []]]]]; discriminate. }
  split; [exact H |].
  exact (proj1 (proj2 (proj2 (proj2 (deduplicate_links_spec ["a"; "b"; "a"; "c"])))) H).
Defined.

End UtilsFacts.

(** ** config.py *)

Module Config.

Import PyStr.
Open Scope string_scope.
Open Scope list_scope.
Open Scope py_scope.

(** What [yaml.safe_load] can return. *)
Inductive yaml : Type :=
| YNull
| YBool (b : bool)
| YInt (z : Z)
| YFloat (q : Q)
| YStr (s : string)
| YSeq (items : list yaml)
| YMap (entries : list (yaml * yaml)).

(** Python truthiness of such a value. *)
Definition yaml_truthy (v : yaml) : bool :=
  match v with
  | YNull => false
  | YBool b => b
  | YInt z => negb (z =? 0)%Z
  | YFloat q => negb (Qeq_bool q 0)
  | YStr s => truthy s
  | YSeq items => match items with [] => false | _ => true end
  | YMap entries => match entries with [] => false | _ => true end
  end.

(** A [Config] instance.  The dataclass does not check types, so every
    field can hold any loaded value.  [extra] holds instance attributes that
    [setattr] may create under a name the class already provides. *)
Record Config : Type := mkConfig {
  delay_between_requests : yaml;
  max_requests_per_minute : yaml;
  timeout : yaml;
  output_dir : yaml;
  idm_path : yaml;
  download_dir : yaml;
  download_link_selector : yaml;
  xhr_patterns : yaml;
  extra : list (string * yaml)
}.

(** [Config()], with [__post_init__] applied. *)
Definition default_config : Config := {|
  delay_between_requests := YInt 5;
  max_requests_per_minute := YInt 10;
  timeout := YInt 15;
  output_dir := YStr "./out";
  idm_path := YStr "C:/Program Files (x86)/Internet Download Manager/IDMan.exe";
  download_dir := YStr "C:/Downloads";
  download_link_selector :=
    YStr "a.download-button, a[data-download], a.video-download, a[href*='download']";
  xhr_patterns :=
    YSeq [YStr "*.m3u8*"; YStr "*.mpd*"; YStr "*video*"; YStr "*media*";
          YStr "*stream*"];
  extra := []
|}.

Definition field_names : list string :=
  ["delay_between_requests"; "max_requests_per_minute"; "timeout";
   "output_dir"; "idm_path"; "download_dir"; "download_link_selector";
   "xhr_patterns"].

Definition is_field (key : string) : bool :=
  existsb (String.eqb key) field_names.

(** [setattr(config, key, value)] for the name of a field. *)
Definition set_field (c : Config) (key : string) (value : yaml) : Config :=
  if String.eqb key "delay_between_requests" then
    mkConfig value (max_requests_per_minute c) (timeout c) (output_dir c)
             (idm_path c) (download_dir c) (download_link_selector c)
             (xhr_patterns c) (extra c)
  else if String.eqb key "max_requests_per_minute" then
    mkConfig (delay_between_requests c) value (timeout c) (output_dir c)
             (idm_path c) (download_dir c) (download_link_selector c)
             (xhr_patterns c) (extra c)
  else if String.eqb key "timeout" then
    mkConfig (delay_between_requests c) (max_requests_per_minute c) value
             (output_dir c) (idm_path c) (download_dir c)
             (download_link_selector c) (xhr_patterns c) (extra c)
  else if String.eqb key "output_dir" then
    mkConfig (delay_between_requests c) (max_requests_per_minute c) (timeout c)
             value (idm_path c) (download_dir c) (download_link_selector c)
             (xhr_patterns c) (extra c)
  else if String.eqb key "idm_path" then
    mkConfig (delay_between_requests c) (max_requests_per_minute c) (timeout c)
             (output_dir c) value (download_dir c) (download_link_selector c)
             (xhr_patterns c) (extra c)
  else if String.eqb key "download_dir" then
    mkConfig (delay_between_requests c) (max_requests_per_minute c) (timeout c)
             (output_dir c) (idm_path c) value (download_link_selector c)
             (xhr_patterns c) (extra c)
  else if String.eqb key "download_link_selector" then
    mkConfig (delay_between_requests c) (max_requests_per_minute c) (timeout c)
             (output_dir c) (idm_path c) (download_dir c) value
             (xhr_patterns c) (extra c)
  else if String.eqb key "xhr_patterns" then
    mkConfig (delay_between_requests c) (max_requests_per_minute c) (timeout c)
             (output_dir c) (idm_path c) (download_dir c)
             (download_link_selector c) value (extra c)
  else c.

Definition set_extra (c : Config) (key : string) (value : yaml) : Config :=
  mkConfig (delay_between_requests c) (max_requests_per_minute c) (timeout c)
           (output_dir c) (idm_path c) (download_dir c)
           (download_link_selector c) (xhr_patterns c)
           (extra c ++ [(key, value)]).

Section Load.

(** Besides its fields, an instance answers [hasattr] for the names its
    class and [object] provide ([__post_init__], [__class__], [__eq__], ...).
    Which names these are, and whether [setattr] accepts a value for one of
    them, is fixed by the Python object model and not by this repository:
    [class_attr name] is [None] when there is no such attribute, and
    otherwise tells whether assigning a value succeeds or raises. *)
Variable class_attr : string -> option (yaml -> result unit).

(** [hasattr(config, key)]; a key that is not a string is a [TypeError]. *)
Definition hasattr (key : yaml) : result bool :=
  match key with
  | YStr name =>
      Ok (is_field name ||
          match class_attr name with Some _ => true | None => false end)
  | _ => Raise (PyException "TypeError")
  end.

(** [setattr(config, key, value)], reached only when [hasattr] holds. *)
Definition setattr (c : Config) (key : yaml) (value : yaml) : result Config :=
  match key with
  | YStr name =>
      if is_field name then Ok (set_field c name value)
      else match class_attr name with
           | Some assign => _ <- assign value ;; Ok (set_extra c name value)
           | None => Raise (PyException "AttributeError")
           end
  | _ => Raise (PyException "TypeError")
  end.

(** [for key, value in config_data.items(): ...] *)
Fixpoint update_loop (c : Config) (entries : list (yaml * yaml)) : result Config :=
  match entries with
  | [] => Ok c
  | (key, value) :: rest =>
      known <- hasattr key ;;
      if known then
        c' <- setattr c key value ;;
        update_loop c' rest
      else update_loop c rest
  end.

(** [config_data.items()] exists on a mapping only. *)
Definition items (config_data : yaml) : result (list (yaml * yaml)) :=
  match config_data with
  | YMap entries => Ok entries
  | _ => Raise (PyException "AttributeError")
  end.

(** [load_config(config_path)].  [file] is what the path holds: [None] when
    [os.path.exists] is false, otherwise the outcome of opening the file and
    of [yaml.safe_load] on it. *)
Definition load_config (file : option (result yaml)) : result Config :=
  match file with
  | None => Raise (PyException "FileNotFoundError")
  | Some loaded =>
      config_data <- loaded ;;
      let config := default_config in
      if yaml_truthy config_data then
        entries <- items config_data ;;
        update_loop config entries
      else Ok config
  end.

(** A key is unknown when it is a string that names neither a field nor
    any other attribute of the instance. *)
Definition unknown_key (key : yaml) : bool :=
  match key with
  | YStr name =>
      negb (is_field name) &&
      match class_attr name with Some _ => false | None => true end
  | _ => false
  end.

End Load.

End Config.

Module ConfigFacts.

Import PyStr Config.
Open Scope string_scope.
Open Scope list_scope.

(** The one non-field attribute that config.py itself declares on the
    class; assigning to it on an instance is accepted. *)
Definition declared_class_attr (name : string) : option (yaml -> result unit) :=
  if String.eqb name "__post_init__" then Some (fun _ => Ok tt) else None.

Section Load.

Variable class_attr : string -> option (yaml -> result unit).

Definition recognised (entry : yaml * yaml) : bool :=
  negb (unknown_key class_attr (fst entry)).

Lemma hasattr_unknown (key : yaml) :
  unknown_key class_attr key = true -> hasattr class_attr key = Ok false.
Proof.
  destruct key; simpl; try discriminate.
  destruct (is_field s); simpl; [discriminate |].
  destruct (class_attr s); [discriminate | reflexivity].
Qed.

Lemma update_loop_recognised (entries : list (yaml * yaml)) (c : Config) :
  update_loop class_attr c entries
  = update_loop class_attr c (filter recognised entries).
Proof.
  revert c. induction entries as [|[key value] rest IH]; intros c.
  - reflexivity.
  - cbn [filter]. unfold recognised at 1. cbn [fst].
    destruct (unknown_key class_attr key) eqn:U; cbn [negb].
    + cbn [update_loop]. rewrite (hasattr_unknown _ U). cbn [bind]. apply IH.
    + cbn [update_loop]. destruct (hasattr class_attr key) as [[|]|e];
        cbn [bind]; trivial.
      destruct (setattr class_attr c key value); cbn [bind]; trivial.
Qed.

Lemma update_loop_total (entries : list (yaml * yaml)) (c : Config) :
  (forall entry, In entry entries ->
     exists name, fst entry = YStr name /\
                  (is_field name = true \/ class_attr name = None)) ->
  exists c', update_loop class_attr c entries = Ok c'.
Proof.
  revert c. induction entries as [|[key value] rest IH]; intros c H.
  - now exists c.
  - destruct (H (key, value) (or_introl eq_refl)) as [name [E K]].
    cbn [fst] in E. subst key. cbn [update_loop hasattr bind].
    assert (Hrest : forall entry, In entry rest ->
              exists name, fst entry = YStr name /\
                           (is_field name = true \/ class_attr name = None)).
    { intros entry Hin. apply H. now right. }
    destruct (is_field name) eqn:F; cbn [orb].
    + cbn [setattr]. rewrite F. cbn [bind]. now apply IH.
    + destruct K as [K | K]; [discriminate |]. rewrite K. now apply IH.
Qed.

End Load.

(** The claim as stated fails: a mapping with the key [colour], which is no
    field of [Config], loads without error and gives the defaults. *)
Lemma load_config_accepts_unknown_key :
  is_field "colour" = false /\
  load_config declared_class_attr (Some (Ok (YMap [(YStr "colour", YStr "red")])))
  = Ok default_config.
Proof. split; reflexivity. Qed.

(** C7 (amended). A key of the configuration mapping that names no
    attribute of the [Config] object is silently ignored: loading gives the
    same outcome as loading the mapping without such keys, and a mapping
    whose keys are all field names or unknown names loads without error. *)
Theorem load_config_ignores_unknown_keys
        (class_attr : string -> option (yaml -> result unit))
        (entries : list (yaml * yaml)) :
  load_config class_attr (Some (Ok (YMap entries)))
  = load_config class_attr
      (Some (Ok (YMap (filter (recognised class_attr) entries)))) /\
  ((forall entry, In entry entries ->
      exists name, fst entry = YStr name /\
                   (is_field name = true \/ class_attr name = None)) ->
   exists c, load_config class_attr (Some (Ok (YMap entries))) = Ok c).
Proof.
  split.
  - cbn [load_config bind yaml_truthy items].
    rewrite (update_loop_recognised class_attr entries default_config).
    destruct entries as [|e rest]; [reflexivity |].
    destruct (filter (recognised class_attr) (e :: rest)); reflexivity.
  - intros H. cbn [load_config bind yaml_truthy items].
    destruct entries as [|e rest]; [now exists default_config |].
    now apply update_loop_total.
Qed.

Lemma load_config_ignores_unknown_keys_witness :
  (forall entry, In entry [(YStr "timeout", YInt 30); (YStr "colour", YStr "red")] ->
     exists name, fst entry = YStr name /\
                  (is_field name = true \/ declared_class_attr name = None)) /\
  exists c,
    load_config declared_class_attr
      (Some (Ok (YMap [(YStr "timeout", YInt 30); (YStr "colour", YStr "red")])))
    = Ok c.
Proof.
  assert (H : forall entry,
             In entry [(YStr "timeout", YInt 30); (YStr "colour", YStr "red")] ->
             exists name, fst entry = YStr name /\
                          (is_field name = true \/ declared_class_attr name = None)).
  { intros entry [<- | [<- | []]]; eexists; (split; [reflexivity |]).
    - left. reflexivity.
    - right. reflexivity. }
  split; [exact H |].
  exact (proj2 (load_config_ignores_unknown_keys declared_class_attr _) H).
Defined.

End ConfigFacts.

(** ** browser_client.py: class RateLimiter *)

Module Limiter.

Open Scope string_scope.
Open Scope list_scope.
Open Scope Q_scope.
Open Scope py_scope.

Definition Qlt_bool (x y : Q) : bool := negb (Qle_bool y x).

(** [min(l)] and [max(l)]: the first smallest and the first largest element;
    on an empty list they raise [ValueError]. *)
Fixpoint min_from (best : Q) (l : list Q) : Q :=
  match l with
  | [] => best
  | t :: rest => if Qlt_bool t best then min_from t rest else min_from best rest
  end.

Fixpoint max_from (best : Q) (l : list Q) : Q :=
  match l with
  | [] => best
  | t :: rest => if Qlt_bool best t then max_from t rest else max_from best rest
  end.

Definition py_min (l : list Q) : result Q :=
  match l with
  | [] => Raise (PyException "ValueError")
  | t :: rest => Ok (min_from t rest)
  end.

Definition py_max (l : list Q) : result Q :=
  match l with
  | [] => Raise (PyException "ValueError")
  | t :: rest => Ok (max_from t rest)
  end.

Record RateLimiter : Type := mkRateLimiter {
  delay_between_requests : Z;
  max_requests_per_minute : Z;
  request_times : list Q
}.

(** [RateLimiter(delay_between_requests, max_requests_per_minute)] *)
Definition new (delay_between_requests max_requests_per_minute : Z) : RateLimiter :=
  mkRateLimiter delay_between_requests max_requests_per_minute [].

(** [wait_for_request], the body run under the lock.

    The wall clock is passed in: [current_time] is what the first
    [time.time()] returns.  An [asyncio.sleep(s)] moves the clock on by [s];
    [lag] is the time that passes in the body on top of the requested
    sleeps (scheduling, late wake-ups).  The result holds the new state and
    the value of the final [time.time()], which is the timestamp recorded
    and the moment the call completes. *)
Definition wait_for_request (rl : RateLimiter) (current_time lag : Q)
  : result (RateLimiter * Q) :=
  let one_minute_ago := current_time - 60 in
  let times := filter (fun t => Qlt_bool one_minute_ago t) (request_times rl) in
  clock1 <-
    (if (max_requests_per_minute rl <=? Z.of_nat (List.length times))%Z then
       oldest_time <- py_min times ;;
       let sleep_time := Qmax (60 - (current_time - oldest_time)) 0 in
       Ok (current_time + sleep_time)
     else Ok current_time) ;;
  clock2 <-
    (match times with
     | _ :: _ =>
         latest_time <- py_max times ;;
         let elapsed := current_time - latest_time in
         if Qlt_bool elapsed (inject_Z (delay_between_requests rl))
         then Ok (clock1 + (inject_Z (delay_between_requests rl) - elapsed))
         else Ok clock1
     | [] => Ok clock1
     end) ;;
  let recorded := clock2 + lag in
  Ok (mkRateLimiter (delay_between_requests rl) (max_requests_per_minute rl)
                    (times ++ [recorded]),
      recorded).

(** One call as the environment shapes it: [idle] is the time between the
    completion of the previous call (the release of the lock) and the moment
    this call reads the clock; [lag] is as above. *)
Record call : Type := mkCall { idle : Q; lag : Q }.

(** A sequence of calls serialised by the lock, from the clock value
    [clock]: the final state and the timestamps recorded, in order.  A call
    that raises ends the run. *)
Fixpoint acquire_all (clock : Q) (rl : RateLimiter) (calls : list call)
  : result (RateLimiter * list Q) :=
  match calls with
  | [] => Ok (rl, [])
  | c :: rest =>
      '(rl1, finished) <- wait_for_request rl (clock + idle c) (lag c) ;;
      '(rl2, stamps) <- acquire_all finished rl1 rest ;;
      Ok (rl2, finished :: stamps)
  end.

(** Time does not run backwards and a sleep is not cut short. *)
Definition well_timed (calls : list call) : Prop :=
  Forall (fun c => 0 <= idle c /\ 0 <= lag c) calls.

(** The recorded timestamps in the trailing window [(t - 60, t]]; the
    left end is open as in the code's [t > one_minute_ago]. *)
Definition in_window (t x : Q) : bool := Qlt_bool (t - 60) x && Qle_bool x t.

Definition window_count (stamps : list Q) (t : Q) : nat :=
  List.length (filter (in_window t) stamps).

(** Any two timestamps recorded one after the other lie [d] apart. *)
Definition spaced (d : Q) (stamps : list Q) : Prop :=
  forall pre a b post, stamps = pre ++ a :: b :: post -> a + d <= b.

End Limiter.

Module LimiterFacts.

Import Limiter.
Open Scope list_scope.
Open Scope Q_scope.

Lemma Qlt_bool_iff (x y : Q) : Qlt_bool x y = true <-> x < y.
Proof.
  unfold Qlt_bool. rewrite negb_true_iff, <- not_true_iff_false, Qle_bool_iff.
  split; [apply Qnot_le_lt | apply Qlt_not_le].
Qed.

Lemma Qlt_bool_false (x y : Q) : Qlt_bool x y = false <-> y <= x.
Proof.
  unfold Qlt_bool. now rewrite negb_false_iff, Qle_bool_iff.
Qed.

Lemma min_from_spec (l : list Q) (best : Q) :
  In (min_from best l) (best :: l) /\
  forall x, In x (best :: l) -> min_from best l <= x.
Proof.
  revert best. induction l as [|t rest IH]; intros best; cbn [min_from].
  - split; [now left |]. intros x [<- | []]. apply Qle_refl.
  - destruct (Qlt_bool t best) eqn:E.
    + apply Qlt_bool_iff in E. destruct (IH t) as [Hin Hle]. split.
      * right. exact Hin.
      * intros x [<- | Hx]; [| now apply Hle].
        apply Qle_trans with t; [apply Hle; now left | now apply Qlt_le_weak].
    + apply Qlt_bool_false in E. destruct (IH best) as [Hin Hle]. split.
      * destruct Hin as [Hin | Hin]; [now left | right; now right].
      * intros x [<- | [<- | Hx]].
        -- apply Hle. now left.
        -- apply Qle_trans with best; [apply Hle; now left | exact E].
        -- apply Hle. now right.
Qed.

Lemma max_from_spec (l : list Q) (best : Q) :
  In (max_from best l) (best :: l) /\
  forall x, In x (best :: l) -> x <= max_from best l.
Proof.
  revert best. induction l as [|t rest IH]; intros best; cbn [max_from].
  - split; [now left |]. intros x [<- | []]. apply Qle_refl.
  - destruct (Qlt_bool best t) eqn:E.
    + apply Qlt_bool_iff in E. destruct (IH t) as [Hin Hle]. split.
      * right. exact Hin.
      * intros x [<- | Hx]; [| now apply Hle].
        apply Qle_trans with t; [now apply Qlt_le_weak | apply Hle; now left].
    + apply Qlt_bool_false in E. destruct (IH best) as [Hin Hle]. split.
      * destruct Hin as [Hin | Hin]; [now left | right; now right].
      * intros x [<- | [<- | Hx]].
        -- apply Hle. now left.
        -- apply Qle_trans with best; [exact E | apply Hle; now left].
        -- apply Hle. now right.
Qed.

Lemma py_min_spec (l : list Q) (m : Q) :
  py_min l = Ok m -> In m l /\ forall x, In x l -> m <= x.
Proof.
  destruct l as [|t rest]; [discriminate |].
  intros H. injection H as <-. apply min_from_spec.
Qed.

Lemma py_max_spec (l : list Q) (m : Q) :
  py_max l = Ok m -> In m l /\ forall x, In x l -> x <= m.
Proof.
  destruct l as [|t rest]; [discriminate |].
  intros H. injection H as <-. apply max_from_spec.
Qed.

(** The timestamps that survive the pruning at [current_time]. *)
Definition kept (rl : RateLimiter) (current_time : Q) : list Q :=
  filter (fun t => Qlt_bool (current_time - 60) t) (request_times rl).

(** What one completed call does, in terms of the clock. *)
Lemma wait_for_request_spec (rl rl' : RateLimiter) (current_time lag T : Q) :
  0 <= lag ->
  wait_for_request rl current_time lag = Ok (rl', T) ->
  delay_between_requests rl' = delay_between_requests rl /\
  max_requests_per_minute rl' = max_requests_per_minute rl /\
  request_times rl' = kept rl current_time ++ [T] /\
  current_time <= T /\
  ((max_requests_per_minute rl <= Z.of_nat (List.length (kept rl current_time)))%Z ->
   exists oldest, In oldest (kept rl current_time) /\ oldest + 60 <= T) /\
  (forall latest, In latest (kept rl current_time) ->
     (forall x, In x (kept rl current_time) -> x <= latest) ->
     latest + inject_Z (delay_between_requests rl) <= T).
Proof.
  intros Hlag. unfold wait_for_request. fold (kept rl current_time).
  set (times := kept rl current_time).
  set (d := inject_Z (delay_between_requests rl)).
  destruct (max_requests_per_minute rl <=? Z.of_nat (List.length times))%Z eqn:Ecap.
  - (* the cap is reached *)
    destruct (py_min times) as [oldest|e] eqn:Emin; cbn [bind]; [| discriminate].
    apply py_min_spec in Emin. destruct Emin as [Hin Hmin].
    pose proof (Q.le_max_l (60 - (current_time - oldest)) 0) as M1.
    pose proof (Q.le_max_r (60 - (current_time - oldest)) 0) as M2.
    set (sleep_time := Qmax (60 - (current_time - oldest)) 0) in *.
    destruct times as [|t0 rest] eqn:Et; [destruct Hin |].
    destruct (py_max (t0 :: rest)) as [latest|e] eqn:Emax; cbn [bind];
      [| discriminate].
    apply py_max_spec in Emax. destruct Emax as [Hlin Hmax].
    destruct (Qlt_bool (current_time - latest) d) eqn:Ed; cbn [bind];
      intros H; injection H as <- <-; cbn.
    + apply Qlt_bool_iff in Ed.
      repeat split; trivial.
      * lra.
      * intros _. exists oldest. split; [exact Hin | lra].
      * intros l Hl Hall. specialize (Hmax l Hl). specialize (Hall latest Hlin).
        lra.
    + apply Qlt_bool_false in Ed.
      repeat split; trivial.
      * lra.
      * intros _. exists oldest. split; [exact Hin | lra].
      * intros l Hl Hall. specialize (Hmax l Hl). specialize (Hall latest Hlin).
        lra.
  - (* below the cap *)
    apply Z.leb_gt in Ecap. cbn [bind].
    destruct times as [|t0 rest] eqn:Et.
    + cbn [bind]. intros H; injection H as <- <-; cbn.
      repeat split; trivial.
      * lra.
      * intros Hc. cbn in Hc. lia.
      * intros l [].
    + destruct (py_max (t0 :: rest)) as [latest|e] eqn:Emax; cbn [bind];
        [| discriminate].
      apply py_max_spec in Emax. destruct Emax as [Hlin Hmax].
      destruct (Qlt_bool (current_time - latest) d) eqn:Ed; cbn [bind];
        intros H; injection H as <- <-; cbn.
      * apply Qlt_bool_iff in Ed.
        repeat split; trivial.
        -- lra.
        -- intros Hc. cbn [List.length] in Ecap. lia.
        -- intros l Hl Hall. specialize (Hmax l Hl).
           specialize (Hall latest Hlin). lra.
      * apply Qlt_bool_false in Ed.
        repeat split; trivial.
        -- lra.
        -- intros Hc. cbn [List.length] in Ecap. lia.
        -- intros l Hl Hall. specialize (Hmax l Hl).
           specialize (Hall latest Hlin). lra.
Qed.

(** *** The cap on the sliding window *)

Lemma filter_filter_implied {A : Type} (f g : A -> bool) (l : list A) :
  (forall x, f x = true -> g x = true) ->
  filter f (filter g l) = filter f l.
Proof.
  intros Himp. induction l as [|x l IH]; cbn [filter]; [reflexivity |].
  destruct (g x) eqn:Eg; cbn [filter].
  - now rewrite IH.
  - destruct (f x) eqn:Ef; [| exact IH].
    apply Himp in Ef. congruence.
Qed.

Lemma filter_length_mono {A : Type} (f g : A -> bool) (l : list A) :
  (forall x, In x l -> f x = true -> g x = true) ->
  (List.length (filter f l) <= List.length (filter g l))%nat.
Proof.
  induction l as [|x l IH]; intros Himp; cbn [filter]; [lia |].
  assert (IH' := IH (fun y Hy => Himp y (or_intror Hy))).
  destruct (f x) eqn:Ef.
  - rewrite (Himp x (or_introl eq_refl) Ef). cbn [List.length]. lia.
  - destruct (g x); cbn [List.length]; lia.
Qed.

Lemma filter_length_drop {A : Type} (f : A -> bool) (l : list A) (x : A) :
  In x l -> f x = false -> (List.length (filter f l) < List.length l)%nat.
Proof.
  induction l as [|y l IH]; intros Hin Hf; [destruct Hin |].
  cbn [filter List.length]. pose proof (filter_length_le f l) as Hle.
  destruct Hin as [-> | Hin].
  - rewrite Hf. lia.
  - specialize (IH Hin Hf). destruct (f y); cbn [List.length]; lia.
Qed.

(** The invariant of a run: [stamps] are all timestamps recorded so far,
    [clock] the clock when the last call completed. *)
Record consistent (M : Z) (clock : Q) (rl : RateLimiter) (stamps : list Q)
  : Prop := {
  cap_fixed : max_requests_per_minute rl = M;
  stamps_past : forall x, In x stamps -> x <= clock;
  window_full : forall t, (Z.of_nat (window_count stamps t) <= M)%Z;
  recent_kept : forall bound, clock - 60 <= bound ->
      filter (fun t => Qlt_bool bound t) (request_times rl)
      = filter (fun t => Qlt_bool bound t) stamps
}.

Lemma consistent_new (d M : Z) (clock : Q) :
  (0 <= M)%Z -> consistent M clock (new d M) [].
Proof.
  intros HM. split; cbn; trivial. intros x [].
Qed.

Lemma consistent_step (M : Z) (clock : Q) (rl rl' : RateLimiter)
      (stamps : list Q) (c : call) (T : Q) :
  consistent M clock rl stamps ->
  0 <= idle c -> 0 <= lag c ->
  wait_for_request rl (clock + idle c) (lag c) = Ok (rl', T) ->
  consistent M T rl' (stamps ++ [T]).
Proof.
  intros [Hcap Hpast Hwin Hrec] Hidle Hlag Hrun.
  set (now := clock + idle c) in *.
  destruct (wait_for_request_spec _ _ _ _ _ Hlag Hrun)
    as [_ [Hcap' [Htimes [HT [Hfull _]]]]].
  assert (Hkept : kept rl now = filter (fun t => Qlt_bool (now - 60) t) stamps).
  { unfold kept. apply Hrec. unfold now. lra. }
  assert (Hkept_len : (Z.of_nat (List.length (kept rl now)) <= M)%Z).
  { rewrite Hkept. eapply Z.le_trans; [| apply (Hwin now)].
    apply inj_le. unfold window_count. apply filter_length_mono.
    intros x Hx Hlt. unfold in_window. rewrite Hlt. cbn [andb].
    apply Qle_bool_iff. specialize (Hpast x Hx). unfold now. lra. }
  split.
  - congruence.
  - intros x Hx. apply in_app_iff in Hx. destruct Hx as [Hx | [<- | []]].
    + specialize (Hpast x Hx). unfold now in HT. lra.
    + apply Qle_refl.
  - intros t. unfold window_count. rewrite filter_app, length_app.
    cbn [filter]. destruct (in_window t T) eqn:Ein.
    + (* the new timestamp lies in the window *)
      unfold in_window in Ein. apply andb_true_iff in Ein.
      destruct Ein as [E1 E2]. apply Qlt_bool_iff in E1.
      apply Qle_bool_iff in E2. cbn [List.length].
      assert (Hold : (List.length (filter (in_window t) stamps)
                      <= List.length (filter (fun x => Qlt_bool (T - 60) x)
                                             (kept rl now)))%nat).
      { rewrite Hkept, filter_filter_implied.
        - apply filter_length_mono. intros x _ Hx.
          unfold in_window in Hx. apply andb_true_iff in Hx.
          destruct Hx as [Hx _]. apply Qlt_bool_iff in Hx.
          apply Qlt_bool_iff. lra.
        - intros x Hx. apply Qlt_bool_iff in Hx. apply Qlt_bool_iff. lra. }
      destruct (Z_lt_le_dec (Z.of_nat (List.length (kept rl now))) M) as [Hlt | Hge].
      * pose proof (filter_length_le (fun x => Qlt_bool (T - 60) x) (kept rl now)).
        lia.
      * rewrite Hcap in Hfull. destruct (Hfull Hge) as [oldest [Hin Hold60]].
        assert (Hdrop : Qlt_bool (T - 60) oldest = false).
        { apply Qlt_bool_false. lra. }
        pose proof (filter_length_drop (fun x => Qlt_bool (T - 60) x) _ _
                      Hin Hdrop).
        lia.
    + cbn [List.length]. specialize (Hwin t). unfold window_count in Hwin. lia.
  - intros bound Hb. rewrite Htimes, !filter_app. f_equal.
    unfold kept. rewrite filter_filter_implied.
    + apply Hrec. unfold now in HT. lra.
    + intros x Hx. apply Qlt_bool_iff in Hx. apply Qlt_bool_iff. lra.
Qed.

Lemma consistent_run (M : Z) (calls : list call) :
  forall (clock : Q) (rl rl' : RateLimiter) (stamps new_stamps : list Q),
    consistent M clock rl stamps ->
    well_timed calls ->
    acquire_all clock rl calls = Ok (rl', new_stamps) ->
    exists clock', consistent M clock' rl' (stamps ++ new_stamps).
Proof.
  induction calls as [|c rest IH]; intros clock rl rl' stamps new_stamps Hc Hw Hrun.
  - injection Hrun as <- <-. exists clock. now rewrite app_nil_r.
  - cbn [acquire_all] in Hrun. unfold bind in Hrun.
    destruct (wait_for_request rl (clock + idle c) (lag c)) as [[rl1 T]|e] eqn:E1;
      [| discriminate].
    destruct (acquire_all T rl1 rest) as [[rl2 more]|e] eqn:E2; [| discriminate].
    injection Hrun as <- <-.
    inversion Hw as [|? ? [Hidle Hlag] Hw']; subst.
    pose proof (consistent_step _ _ _ _ _ _ _ Hc Hidle Hlag E1) as Hc1.
    destruct (IH _ _ _ _ _ Hc1 Hw' E2) as [clock' Hc2].
    exists clock'. now rewrite <- app_assoc in Hc2.
Qed.

(** C2. Take a rate limiter with cap [M] and any sequence of calls of
    [wait_for_request] that all complete, on a clock that does not run
    backwards.  Then every trailing 60-second window, at whatever moment [t]
    it ends, holds at most [M] of the timestamps the calls recorded. *)
Theorem window_never_exceeds_cap (d M : Z) (clock : Q) (calls : list call)
        (rl' : RateLimiter) (stamps : list Q) :
  (0 <= M)%Z ->
  well_timed calls ->
  acquire_all clock (new d M) calls = Ok (rl', stamps) ->
  forall t : Q, (Z.of_nat (window_count stamps t) <= M)%Z.
Proof.
  intros HM Hw Hrun.
  destruct (consistent_run _ _ _ _ _ _ _ (consistent_new d M clock HM) Hw Hrun)
    as [clock' Hc].
  exact (window_full _ _ _ _ Hc).
Qed.

(** Four calls on a limiter with delay 5 and cap 2, the third one second
    after the second has completed. *)
Definition sample_calls : list call :=
  [mkCall 0 0; mkCall 0 0; mkCall 1 0; mkCall 0 0].

Definition sample_stamps : list Q := [0; 5; 64; 70].

Lemma window_never_exceeds_cap_witness :
  acquire_all 0 (new 5 2) sample_calls
    = Ok (mkRateLimiter 5 2 [5; 64; 70], sample_stamps) /\
  (Z.of_nat (window_count sample_stamps 70) <= 2)%Z.
Proof.
  assert (Hrun : acquire_all 0 (new 5 2) sample_calls
                 = Ok (mkRateLimiter 5 2 [5; 64; 70], sample_stamps))
    by (vm_compute; reflexivity).
  assert (Hw : well_timed sample_calls)
    by (repeat constructor; cbn; unfold Qle; cbn; lia).
  assert (HM : (0 <= 2)%Z) by lia.
  split; [exact Hrun |].
  exact (window_never_exceeds_cap 5 2 0 sample_calls _ sample_stamps
           HM Hw Hrun 70).
Defined.

(** *** The minimum delay *)

Lemma spaced_nil (d : Q) : spaced d [].
Proof. intros pre a b post H. destruct pre; discriminate H. Qed.

Lemma spaced_snoc (d : Q) (stamps : list Q) (T : Q) :
  spaced d stamps ->
  (forall pre a, stamps = pre ++ [a] -> a + d <= T) ->
  spaced d (stamps ++ [T]).
Proof.
  intros Hs Hlast pre a b post H.
  destruct post as [|p0 post0].
  - change (pre ++ [a; b]) with (pre ++ [a] ++ [b]) in H.
    rewrite app_assoc in H. apply app_inj_tail in H. destruct H as [H ->].
    apply (Hlast pre a). now symmetry.
  - assert (Hne : p0 :: post0 <> []) by discriminate.
    destruct (exists_last Hne) as [post' [z E]]. rewrite E in H. clear E Hne.
    change (pre ++ a :: b :: post' ++ [z])
      with (pre ++ (a :: b :: post') ++ [z]) in H.
    rewrite app_assoc in H. apply app_inj_tail in H. destruct H as [H _].
    apply (Hs pre a b post'). now symmetry.
Qed.

(** The invariant behind the delay: the limiter still holds the last
    recorded timestamp, and nothing it holds is later than the clock. *)
Record paced (d : Z) (clock : Q) (rl : RateLimiter) (stamps : list Q)
  : Prop := {
  delay_fixed : delay_between_requests rl = d;
  times_past : forall x, In x (request_times rl) -> x <= clock;
  last_kept : forall pre a, stamps = pre ++ [a] ->
      a = clock /\ In clock (request_times rl);
  gaps : spaced (inject_Z d) stamps
}.

Lemma paced_new (d M : Z) (clock : Q) : paced d clock (new d M) [].
Proof.
  split; cbn; trivial.
  - intros x [].
  - intros pre a H. destruct pre; discriminate H.
  - apply spaced_nil.
Qed.

Lemma paced_step (d : Z) (clock : Q) (rl rl' : RateLimiter)
      (stamps : list Q) (c : call) (T : Q) :
  (d <= 60)%Z ->
  paced d clock rl stamps ->
  0 <= idle c -> 0 <= lag c ->
  wait_for_request rl (clock + idle c) (lag c) = Ok (rl', T) ->
  paced d T rl' (stamps ++ [T]).
Proof.
  intros Hd [Hdel Hpast Hlast Hgaps] Hidle Hlag Hrun.
  set (now := clock + idle c) in *.
  destruct (wait_for_request_spec _ _ _ _ _ Hlag Hrun)
    as [Hdel' [_ [Htimes [HT [_ Hdelay]]]]].
  assert (Hkept_past : forall x, In x (kept rl now) -> x <= clock).
  { intros x Hx. apply filter_In in Hx. now apply Hpast. }
  split.
  - congruence.
  - intros x Hx. rewrite Htimes in Hx. apply in_app_iff in Hx.
    destruct Hx as [Hx | [<- | []]].
    + specialize (Hkept_past x Hx). unfold now in HT. lra.
    + apply Qle_refl.
  - intros pre a H. apply app_inj_tail in H. destruct H as [_ <-].
    split; [reflexivity |]. rewrite Htimes. apply in_app_iff. right. now left.
  - apply spaced_snoc; [exact Hgaps |].
    intros pre a E. destruct (Hlast pre a E) as [-> Hin].
    destruct (Qlt_bool (now - 60) clock) eqn:Ek.
    + (* the last timestamp survived the pruning: it is the latest *)
      rewrite <- Hdel. apply Hdelay; [| exact Hkept_past].
      apply filter_In. split; [exact Hin | exact Ek].
    + (* it was pruned: a minute or more has passed *)
      apply Qlt_bool_false in Ek.
      assert (inject_Z d <= 60).
      { change 60 with (inject_Z 60). rewrite <- Zle_Qle. exact Hd. }
      lra.
Qed.

Lemma paced_run (d : Z) (calls : list call) :
  (d <= 60)%Z ->
  forall (clock : Q) (rl rl' : RateLimiter) (stamps new_stamps : list Q),
    paced d clock rl stamps ->
    well_timed calls ->
    acquire_all clock rl calls = Ok (rl', new_stamps) ->
    exists clock', paced d clock' rl' (stamps ++ new_stamps).
Proof.
  intros Hd.
  induction calls as [|c rest IH]; intros clock rl rl' stamps new_stamps Hc Hw Hrun.
  - injection Hrun as <- <-. exists clock. now rewrite app_nil_r.
  - cbn [acquire_all] in Hrun. unfold bind in Hrun.
    destruct (wait_for_request rl (clock + idle c) (lag c)) as [[rl1 T]|e] eqn:E1;
      [| discriminate].
    destruct (acquire_all T rl1 rest) as [[rl2 more]|e] eqn:E2; [| discriminate].
    injection Hrun as <- <-.
    inversion Hw as [|? ? [Hidle Hlag] Hw']; subst.
    pose proof (paced_step _ _ _ _ _ _ _ Hd Hc Hidle Hlag E1) as Hc1.
    destruct (IH _ _ _ _ _ Hc1 Hw' E2) as [clock' Hc2].
    exists clock'. now rewrite <- app_assoc in Hc2.
Qed.

(** For a delay of at most 60 seconds the limiter keeps it: any two
    timestamps recorded one after the other lie at least the delay apart. *)
Lemma delay_kept_within_window (d M : Z) (clock : Q) (calls : list call)
      (rl' : RateLimiter) (stamps : list Q) :
  (d <= 60)%Z ->
  well_timed calls ->
  acquire_all clock (new d M) calls = Ok (rl', stamps) ->
  spaced (inject_Z d) stamps.
Proof.
  intros Hd Hw Hrun.
  destruct (paced_run d calls Hd _ _ _ _ _ (paced_new d M clock) Hw Hrun)
    as [clock' Hc].
  exact (gaps _ _ _ _ Hc).
Qed.

(** Two calls on a limiter with delay 100 and cap 10: the second reads the
    clock 70 seconds after the first has completed. *)
Definition late_calls : list call := [mkCall 0 0; mkCall 70 0].

Definition late_stamps : list Q := [0; 70].

(** C3, on the code.  With a delay of 100 seconds and a second call that
    starts 70 seconds after the first, the pruning step has already dropped
    the first timestamp when the delay is checked, no sleep takes place, and
    the two recorded timestamps lie 70 seconds apart. *)
Theorem delay_broken_beyond_window :
  well_timed late_calls /\
  acquire_all 0 (new 100 10) late_calls
    = Ok (mkRateLimiter 100 10 [70], late_stamps) /\
  ~ spaced (inject_Z 100) late_stamps.
Proof.
  split; [repeat constructor; cbn; unfold Qle; cbn; lia |].
  split; [vm_compute; reflexivity |].
  intros H. specialize (H [] 0 70 [] eq_refl).
  revert H. unfold Qle. cbn. lia.
Qed.

End LimiterFacts.

(** ** browser_client.py: class BrowserClient *)

Module Client.

Import PyStr Extractor.
Open Scope string_scope.
Open Scope list_scope.
Open Scope py_scope.

(** A network response as the listener sees it: the resource type of its
    request and what reading [response.url] gives. *)
Record response : Type := mkResponse {
  resource_type : string;
  url : result string
}.

Definition captured_kinds : list string := ["fetch"; "xhr"; "media"].

Definition capture_patterns : list string :=
  ["m3u8"; "mpd"; "video"; "media"; "stream"; "mp4"; "download"].

(** [_handle_response], on the dictionary [xhr_responses] of the client.  It
    runs as a task of its own, so nothing it raises reaches a fetch; an
    [Exception] is logged and dropped. *)
Definition _handle_response (xhr_responses : dict) (r : response) : dict :=
  if existsb (String.eqb (resource_type r)) captured_kinds then
    match url r with
    | Ok u =>
        if any_in capture_patterns u then setitem xhr_responses u u
        else xhr_responses
    | Raise _ => xhr_responses
    end
  else xhr_responses.

Definition handle_all (xhr_responses : dict) (rs : list response) : dict :=
  fold_left _handle_response rs xhr_responses.

(** The browser side: how many browsers have been launched and contexts
    created so far (the next handle is the count), and the clock at which
    the rate limiter last let a request through. *)
Record world : Type := mkWorld {
  limiter_clock : Q;
  browsers_launched : nat;
  contexts_created : nat
}.

Record BrowserClient : Type := mkClient {
  rate_limiter : Limiter.RateLimiter;
  timeout : Z;
  browser : option nat;
  context : option nat;
  xhr_responses : dict
}.

(** [BrowserClient(delay_between_requests, max_requests_per_minute, timeout)] *)
Definition new (delay_between_requests max_requests_per_minute timeout : Z)
  : BrowserClient :=
  mkClient (Limiter.new delay_between_requests max_requests_per_minute)
           timeout None None [].

(** [initialize]: starts Playwright and launches a browser, stores it,
    creates a context and stores it.  [launch] is the outcome of starting
    and launching, [new_context] that of creating the context; what was
    stored before a failure stays stored. *)
Definition initialize (w : world) (c : BrowserClient)
           (launch new_context : result unit)
  : world * BrowserClient * result unit :=
  match launch with
  | Raise e => (w, c, Raise e)
  | Ok _ =>
      let b := browsers_launched w in
      let w1 := mkWorld (limiter_clock w) (S b) (contexts_created w) in
      let c1 := mkClient (rate_limiter c) (timeout c) (Some b) (context c)
                         (xhr_responses c) in
      match new_context with
      | Raise e => (w1, c1, Raise e)
      | Ok _ =>
          let ctx := contexts_created w in
          (mkWorld (limiter_clock w) (S b) (S ctx),
           mkClient (rate_limiter c) (timeout c) (Some b) (Some ctx)
                    (xhr_responses c),
           Ok tt)
      end
  end.

(** What one fetch meets: the timing of its pass through the rate limiter,
    the outcome of each browser call, and the responses whose handlers run
    while the fetch is suspended in the navigation, in the settle delay and
    in the static-selector scan. *)
Record fetch_env : Type := mkEnv {
  idle : Q;
  lag : Q;
  launch : result unit;
  new_context : result unit;
  new_page : result page;
  on_response : result unit;
  goto : result unit;
  during_goto : list response;
  during_settle : list response;
  during_scan : list response;
  close : result unit
}.

(** [try: ... finally: cleanup] *)
Definition finally {A : Type} (body : result A) (cleanup : result unit)
  : result A :=
  match cleanup with
  | Ok _ => body
  | Raise e => Raise e
  end.

(** The dictionary the pipeline reads when the fetch gets that far: cleared
    at the start of the fetch, then filled by the handlers that ran since. *)
Definition captured (env : fetch_env) : dict :=
  handle_all (handle_all (handle_all [] (during_goto env)) (during_settle env))
             (during_scan env).

(** The body of the [try] block: the dictionary as the handlers leave it,
    and what the body returns or raises.  Handlers run only once the
    listener is registered and only while the fetch is suspended. *)
Definition visit (timeout : Z) (env : fetch_env) (pg : page)
  : dict * result (option string) :=
  match on_response env with
  | Raise e => ([], Raise e)
  | Ok _ =>
      let xhr1 := handle_all [] (during_goto env) in
      match goto env with
      | Raise e => (xhr1, Raise e)
      | Ok _ =>
          let xhr2 := handle_all xhr1 (during_settle env) in
          let xhr3 := handle_all xhr2 (during_scan env) in
          (xhr3, extract_download_url pg xhr3 timeout)
      end
  end.

Definition with_limiter (c : BrowserClient) (rl : Limiter.RateLimiter)
  : BrowserClient :=
  mkClient rl (timeout c) (browser c) (context c) (xhr_responses c).

Definition with_xhr (c : BrowserClient) (xhr : dict) : BrowserClient :=
  mkClient (rate_limiter c) (timeout c) (browser c) (context c) xhr.

Definition pruned (rl : Limiter.RateLimiter) (current_time : Q)
  : Limiter.RateLimiter :=
  Limiter.mkRateLimiter
    (Limiter.delay_between_requests rl) (Limiter.max_requests_per_minute rl)
    (filter (fun t => Limiter.Qlt_bool (current_time - 60) t)
            (Limiter.request_times rl)).

Definition initialized (c : BrowserClient) : bool :=
  match browser c, context c with
  | Some _, Some _ => true
  | _, _ => false
  end.

(** [fetch_and_extract(url)], run on its own: the state of the browser side
    and of the client afterwards, and what the call returns or raises. *)
Definition fetch_and_extract (w : world) (c : BrowserClient) (env : fetch_env)
  : world * BrowserClient * result (option string) :=
  let current_time := (limiter_clock w + idle env)%Q in
  match Limiter.wait_for_request (rate_limiter c) current_time (lag env) with
  | Raise e => (w, with_limiter c (pruned (rate_limiter c) current_time), Raise e)
  | Ok (rl, finished) =>
      let w := mkWorld finished (browsers_launched w) (contexts_created w) in
      let c := with_limiter c rl in
      let '(w, c, started) :=
        if negb (initialized c) then initialize w c (launch env) (new_context env)
        else (w, c, Ok tt) in
      match started with
      | Raise e => (w, c, Raise e)
      | Ok _ =>
          let c := with_xhr c [] in
          match new_page env with
          | Raise e => (w, c, Raise e)
          | Ok pg =>
              let '(xhr, body) := visit (timeout c) env pg in
              (w, with_xhr c xhr,
               finally (try_except body (fun _ => Ok None)) (close env))
          end
      end
  end.

(** *** Fetches interleaved on one client

    [main] starts all fetches at once; they take turns at the points where
    one of them awaits.  The steps that touch the shared dictionary
    [xhr_responses] are: the [clear()] of a fetch, the handler of a response
    on the page of a fetch, and the read by the pipeline of a fetch. *)
Inductive event : Type :=
| Clear (fetch : nat)
| Respond (fetch : nat) (r : response)
| Analyze (fetch : nat).

(** One step on the shared dictionary; an [Analyze] step also reports what
    the pipeline of that fetch is handed. *)
Definition step (xhr : dict) (e : event) : dict * option (nat * dict) :=
  match e with
  | Clear _ => ([], None)
  | Respond _ r => (_handle_response xhr r, None)
  | Analyze f => (xhr, Some (f, xhr))
  end.

Fixpoint run (xhr : dict) (schedule : list event) : list (nat * dict) :=
  match schedule with
  | [] => []
  | e :: rest =>
      let '(xhr', seen) := step xhr e in
      match seen with
      | Some o => o :: run xhr' rest
      | None => run xhr' rest
      end
  end.

(** The URLs of the responses that belong to a fetch. *)
Fixpoint own_urls (fetch : nat) (schedule : list event) : list string :=
  match schedule with
  | [] => []
  | Respond f r :: rest =>
      if Nat.eqb f fetch then
        match url r with
        | Ok u => u :: own_urls fetch rest
        | Raise _ => own_urls fetch rest
        end
      else own_urls fetch rest
  | _ :: rest => own_urls fetch rest
  end.

End Client.

Module ClientFacts.

Import PyStr Extractor ExtractorFacts Client.
Open Scope string_scope.
Open Scope list_scope.

(** *** The listener and the analysis *)

Lemma keys_setitem (d : dict) (k v k' : string) :
  In k' (keys (setitem d k v)) <-> In k' (keys d) \/ k' = k.
Proof.
  induction d as [|[k0 v0] d IH]; cbn [setitem keys map fst In].
  - intuition.
  - destruct (String.eqb k0 k) eqn:E; cbn [keys map fst In].
    + apply String.eqb_eq in E. subst k0. fold (keys d). intuition.
    + fold (keys (setitem d k v)) (keys d). rewrite IH. intuition.
Qed.

Lemma handle_response_keys (xhr : dict) (r : response) (k : string) :
  In k (keys (_handle_response xhr r)) ->
  In k (keys xhr) \/ url r = Ok k.
Proof.
  unfold _handle_response.
  destruct (existsb (String.eqb (resource_type r)) captured_kinds); auto.
  destruct (url r) as [u|e]; auto.
  destruct (any_in capture_patterns u); auto.
  rewrite keys_setitem. intros [H | ->]; auto.
Qed.

(** C10. A response of kind fetch, xhr or media whose URL is an http(s) URL
    that contains [download] and none of [.mp4], [.m3u8], [.mpd], [/media/],
    [/video/], [stream] is stored by the listener and is a valid download
    URL, yet the captured-response analysis returns it for no contents of
    the dictionary: its pattern list has no [download]. *)
Theorem download_captured_but_never_analyzed
        (u kind : string) (xhr : dict) :
  In kind ["fetch"; "xhr"; "media"] ->
  (Prefix "http://" u \/ Prefix "https://" u) ->
  Substring "download" u ->
  (forall m, In m [".mp4"; ".m3u8"; ".mpd"; "/media/"; "/video/"; "stream"] ->
             ~ Substring m u) ->
  In u (keys (_handle_response xhr (mkResponse kind (Ok u)))) /\
  _is_valid_download_url u = true /\
  (forall captured : dict, _analyze_xhr_responses captured <> Some u) /\
  ~ In "download" video_patterns /\
  In "download" capture_patterns /\ In "download" valid_patterns.
Proof.
  intros Hkind Hscheme Hdl Hnone.
  assert (Hc : contains "download" u = true) by now apply contains_Substring.
  split; [| split; [| split]].
  - unfold _handle_response. cbn [resource_type url].
    assert (Hk : existsb (String.eqb kind) captured_kinds = true).
    { apply existsb_exists. exists kind. split; [exact Hkind | apply String.eqb_refl]. }
    rewrite Hk.
    assert (Hp : any_in capture_patterns u = true).
    { apply any_in_spec. exists "download". split; [simpl; tauto | exact Hdl]. }
    rewrite Hp. apply keys_setitem. now right.
  - apply valid_url_iff. split; [exact Hscheme |].
    exists "download". split; [simpl; tauto | exact Hdl].
  - intros captured H. apply analyze_loop_sound in H.
    destruct H as [_ [Hp _]]. apply any_in_spec in Hp.
    destruct Hp as [m [Hin Hs]]. exact (Hnone m Hin Hs).
  - split; [| split]; [| simpl; tauto | simpl; tauto].
    simpl. intros H. repeat (destruct H as [H | H]; [discriminate H |]).
    exact H.
Qed.

Definition download_only_url : string := "https://site.example/download?id=7".

Lemma download_captured_but_never_analyzed_witness :
  In download_only_url (keys (_handle_response [] (mkResponse "xhr" (Ok download_only_url)))) /\
  _is_valid_download_url download_only_url = true /\
  _analyze_xhr_responses (_handle_response [] (mkResponse "xhr" (Ok download_only_url)))
    <> Some download_only_url.
Proof.
  assert (Hkind : In "xhr" ["fetch"; "xhr"; "media"]) by (simpl; tauto).
  assert (Hscheme : Prefix "http://" download_only_url \/
                    Prefix "https://" download_only_url).
  { right. apply startswith_Prefix. reflexivity. }
  assert (Hdl : Substring "download" download_only_url).
  { apply contains_Substring. reflexivity. }
  assert (Hnone : forall m,
             In m [".mp4"; ".m3u8"; ".mpd"; "/media/"; "/video/"; "stream"] ->
             ~ Substring m download_only_url).
  { intros m Hin Hs. apply contains_Substring in Hs. simpl in Hin.
    repeat (destruct Hin as [<- | Hin]; [discriminate Hs |]). exact Hin. }
  destruct (download_captured_but_never_analyzed
              download_only_url "xhr" [] Hkind Hscheme Hdl Hnone)
    as [H1 [H2 [H3 _]]].
  split; [exact H1 |]. split; [exact H2 |]. apply H3.
Defined.

(** *** Failures inside a fetch *)

Definition outcome {S A : Type} (x : S * result A) : result A := snd x.

Lemma initialized_with_limiter (c : BrowserClient) (rl : Limiter.RateLimiter) :
  initialized (with_limiter c rl) = initialized c.
Proof. reflexivity. Qed.

(** Once the rate limiter has let the fetch through, the browser is there,
    the page has been opened and closing it succeeds, the result is that of
    the [try] body with every [Exception] turned into [None]. *)
Lemma fetch_outcome (w : world) (c : BrowserClient) (env : fetch_env)
      (pg : page) (rl : Limiter.RateLimiter) (T : Q) :
  Limiter.wait_for_request (rate_limiter c) (limiter_clock w + idle env) (lag env)
    = Ok (rl, T) ->
  initialized c = true \/ (launch env = Ok tt /\ new_context env = Ok tt) ->
  new_page env = Ok pg ->
  close env = Ok tt ->
  outcome (fetch_and_extract w c env)
  = try_except (snd (visit (timeout c) env pg)) (fun _ => Ok None).
Proof.
  intros Hlim Hinit Hpage Hclose. unfold outcome, fetch_and_extract.
  rewrite Hlim, initialized_with_limiter.
  destruct (initialized c) eqn:Ei; cbn [negb].
  - rewrite Hpage. cbn [with_limiter with_xhr timeout].
    destruct (visit (timeout c) env pg) as [xhr body]. cbn [snd].
    now rewrite Hclose.
  - destruct Hinit as [Hinit | [Hinit Hctx]]; [discriminate |].
    unfold initialize. rewrite Hinit, Hctx, Hpage.
    cbn [with_limiter with_xhr timeout].
    destruct (visit (timeout c) env pg) as [xhr body]. cbn [snd].
    now rewrite Hclose.
Qed.

Definition fresh_world : world := mkWorld 0 0 0.

Definition fresh_client : BrowserClient := Client.new 5 10 15.

(** A fetch whose [new_page] call fails. *)
Definition env_page_fails : fetch_env :=
  mkEnv 0 0 (Ok tt) (Ok tt) (Raise (PyException "Error")) (Ok tt) (Ok tt) [] [] []
        (Ok tt).

(** The claim as stated fails for the page-open step: [new_page] is called
    before the [try], so what it raises leaves [fetch_and_extract]. *)
Lemma page_open_failure_propagates :
  outcome (fetch_and_extract fresh_world fresh_client env_page_fails)
  = Raise (PyException "Error").
Proof. vm_compute. reflexivity. Qed.

(** C4 (amended). A failure of the page-open step leaves
    [fetch_and_extract] as an exception.  Once the page is open, a failure
    of class [Exception] in the listener registration, in the navigation or
    in the extraction is caught inside [fetch_and_extract] and gives [None],
    and no [Exception] leaves the call, provided closing the page succeeds. *)
Theorem visit_failures_absorbed (w : world) (c : BrowserClient)
        (env : fetch_env) (rl : Limiter.RateLimiter) (T : Q) :
  Limiter.wait_for_request (rate_limiter c) (limiter_clock w + idle env) (lag env)
    = Ok (rl, T) ->
  initialized c = true \/ (launch env = Ok tt /\ new_context env = Ok tt) ->
  (forall e, new_page env = Raise e ->
     outcome (fetch_and_extract w c env) = Raise e) /\
  (forall pg, new_page env = Ok pg -> close env = Ok tt ->
     (forall n, outcome (fetch_and_extract w c env) <> Raise (PyException n)) /\
     (forall n, on_response env = Raise (PyException n) ->
        outcome (fetch_and_extract w c env) = Ok None) /\
     (forall n, on_response env = Ok tt -> goto env = Raise (PyException n) ->
        outcome (fetch_and_extract w c env) = Ok None) /\
     (forall n, on_response env = Ok tt -> goto env = Ok tt ->
        extract_download_url pg (captured env) (timeout c)
          = Raise (PyException n) ->
        outcome (fetch_and_extract w c env) = Ok None)).
Proof.
  intros Hlim Hinit. split.
  - intros e Hpage. unfold outcome, fetch_and_extract.
    rewrite Hlim, initialized_with_limiter.
    destruct (initialized c) eqn:Ei; cbn [negb].
    + now rewrite Hpage.
    + destruct Hinit as [Hinit | [Hinit Hctx]]; [discriminate |].
      unfold initialize. now rewrite Hinit, Hctx, Hpage.
  - intros pg Hpage Hclose.
    rewrite (fetch_outcome w c env pg rl T Hlim Hinit Hpage Hclose).
    split; [| split; [| split]].
    + intros n. destruct (snd (visit (timeout c) env pg)) as [r|[m|m]];
        cbn [try_except]; discriminate.
    + intros n H. unfold visit. now rewrite H.
    + intros n H1 H2. unfold visit. now rewrite H1, H2.
    + intros n H1 H2 H3. unfold visit. rewrite H1, H2. cbn [snd].
      unfold captured in H3. now rewrite H3.
Qed.

(** A fetch whose navigation times out. *)
Definition env_goto_times_out : fetch_env :=
  mkEnv 0 0 (Ok tt) (Ok tt) (Ok link_page) (Ok tt)
        (Raise (PyException "TimeoutError"))
        [] [] [] (Ok tt).

Lemma visit_failures_absorbed_witness :
  goto env_goto_times_out = Raise (PyException "TimeoutError") /\
  outcome (fetch_and_extract fresh_world fresh_client env_goto_times_out)
  = Ok None.
Proof.
  split; [reflexivity |].
  assert (Hlim : Limiter.wait_for_request (rate_limiter fresh_client)
                   (limiter_clock fresh_world + idle env_goto_times_out)
                   (lag env_goto_times_out)
                 = Ok (Limiter.mkRateLimiter 5 10 [0%Q], 0%Q))
    by (vm_compute; reflexivity).
  assert (Hinit : initialized fresh_client = true \/
                  (launch env_goto_times_out = Ok tt /\
                   new_context env_goto_times_out = Ok tt))
    by (right; split; reflexivity).
  exact (proj1 (proj2 (proj2
           (proj2 (visit_failures_absorbed fresh_world fresh_client
                     env_goto_times_out _ _ Hlim Hinit)
              link_page eq_refl eq_refl)))
           "TimeoutError" eq_refl eq_refl).
Defined.

(** *** initialize *)

Definition state {S A : Type} (x : S * result A) : S := fst x.

(** The claim as stated fails: a second call of [initialize] launches a
    second browser, creates a second context and replaces the handles the
    first call stored. *)
Lemma initialize_twice_launches_twice :
  let first := state (initialize fresh_world fresh_client (Ok tt) (Ok tt)) in
  let second := state (initialize (fst first) (snd first) (Ok tt) (Ok tt)) in
  browsers_launched (fst first) = 1%nat /\
  browsers_launched (fst second) = 2%nat /\
  contexts_created (fst second) = 2%nat /\
  browser (snd first) = Some 0%nat /\ browser (snd second) = Some 1%nat /\
  context (snd first) = Some 0%nat /\ context (snd second) = Some 1%nat.
Proof. cbn. repeat split. Qed.

(** C8 (amended). [initialize] itself always launches a further browser
    and creates a further context, and stores the new handles.  It is the
    guard in [fetch_and_extract] that makes the initialisation happen once:
    on a session that holds a browser and a context, [fetch_and_extract]
    launches and creates nothing and leaves both handles as they are. *)
Theorem initialize_only_behind_guard (w : world) (c : BrowserClient)
        (env : fetch_env) :
  initialized c = true ->
  (let after := state (initialize w c (Ok tt) (Ok tt)) in
   browsers_launched (fst after) = S (browsers_launched w) /\
   contexts_created (fst after) = S (contexts_created w) /\
   browser (snd after) = Some (browsers_launched w) /\
   context (snd after) = Some (contexts_created w)) /\
  (let after := state (fetch_and_extract w c env) in
   browsers_launched (fst after) = browsers_launched w /\
   contexts_created (fst after) = contexts_created w /\
   browser (snd after) = browser c /\
   context (snd after) = context c).
Proof.
  intros Hinit. split; [cbn; repeat split |].
  unfold state, fetch_and_extract.
  destruct (Limiter.wait_for_request (rate_limiter c)
              (limiter_clock w + idle env) (lag env)) as [[rl T]|e];
    [| cbn; repeat split].
  rewrite initialized_with_limiter, Hinit. cbn [negb].
  destruct (new_page env) as [pg|e]; [| cbn; repeat split].
  destruct (visit (timeout (with_xhr (with_limiter c rl) [])) env pg)
    as [xhr body].
  cbn. repeat split.
Qed.

(** A session after the one call of [initialize] that [main] makes. *)
Definition started_world : world :=
  fst (state (initialize fresh_world fresh_client (Ok tt) (Ok tt))).

Definition started_client : BrowserClient :=
  snd (state (initialize fresh_world fresh_client (Ok tt) (Ok tt))).

Lemma initialize_only_behind_guard_witness :
  initialized started_client = true /\
  browsers_launched
    (fst (state (fetch_and_extract started_world started_client
                   env_goto_times_out))) = 1%nat.
Proof.
  split; [reflexivity |].
  exact (proj1 (proj2 (initialize_only_behind_guard
                         started_world started_client env_goto_times_out
                         eq_refl))).
Defined.

(** *** The captured responses of interleaved fetches *)

Lemma handle_all_keys (rs : list response) (xhr : dict) (k : string) :
  In k (keys (handle_all xhr rs)) ->
  In k (keys xhr) \/ In (Ok k) (map url rs).
Proof.
  revert xhr. induction rs as [|r rs IH]; intros xhr; cbn [handle_all fold_left map In].
  - auto.
  - intros H. apply IH in H. destruct H as [H | H]; [| auto].
    apply handle_response_keys in H. destruct H as [H | H]; auto.
Qed.

Lemma own_urls_app (f : nat) (s1 s2 : list event) :
  own_urls f (s1 ++ s2) = own_urls f s1 ++ own_urls f s2.
Proof.
  induction s1 as [|e s1 IH]; [reflexivity |].
  cbn [app own_urls]. destruct e as [g | g r | g]; trivial.
  destruct (Nat.eqb g f); trivial. destruct (url r); trivial.
  cbn [app]. now rewrite IH.
Qed.

Lemma own_urls_responds (f : nat) (rs : list response) (k : string) :
  In (Ok k) (map url rs) -> In k (own_urls f (map (Respond f) rs)).
Proof.
  induction rs as [|r rs IH]; cbn [map In own_urls]; [tauto |].
  rewrite Nat.eqb_refl. intros [H | H].
  - rewrite H. now left.
  - destruct (url r); [right |]; now apply IH.
Qed.

Lemma run_responds (f : nat) (rs : list response) (tail : list event) (xhr : dict) :
  run xhr (map (Respond f) rs ++ tail) = run (handle_all xhr rs) tail.
Proof.
  revert xhr. induction rs as [|r rs IH]; intros xhr; [reflexivity |].
  cbn [map app run step handle_all fold_left]. apply IH.
Qed.

(** The events of one fetch: it clears the dictionary, the handlers of its
    responses run, its pipeline reads the dictionary. *)
Definition fetch_events (f : nat) (rs : list response) : list event :=
  Clear f :: map (Respond f) rs ++ [Analyze f].

(** Fetches that run one after the other. *)
Fixpoint sequential (fetches : list (nat * list response)) : list event :=
  match fetches with
  | [] => []
  | (f, rs) :: rest => fetch_events f rs ++ sequential rest
  end.

(** No leak: whatever a pipeline is handed came from a response of its own
    fetch. *)
Definition leak_free (xhr : dict) (schedule : list event) : Prop :=
  forall f seen u,
    In (f, seen) (run xhr schedule) -> In u (keys seen) ->
    In u (own_urls f schedule).

(** On fetches that do not overlap, clearing the shared dictionary at the
    start of each fetch is enough. *)
Lemma sequential_leak_free (fetches : list (nat * list response)) (xhr : dict) :
  leak_free xhr (sequential fetches).
Proof.
  revert xhr. induction fetches as [|[g rs] rest IH]; intros xhr f seen u Hin Hu.
  - destruct Hin.
  - cbn [sequential] in *. unfold fetch_events in *.
    rewrite <- app_comm_cons, <- app_assoc in Hin.
    cbn [run step] in Hin. rewrite run_responds in Hin.
    cbn [app run step] in Hin.
    rewrite own_urls_app. apply in_app_iff.
    destruct Hin as [Hin | Hin].
    + injection Hin as <- <-. left.
      apply handle_all_keys in Hu. destruct Hu as [[] | Hu].
      cbn [own_urls]. rewrite own_urls_app. apply in_app_iff. left.
      now apply own_urls_responds.
    + right. exact (IH _ f seen u Hin Hu).
Qed.

Definition url_a : string := "https://a.example/video/a.m3u8".
Definition url_b : string := "https://b.example/video/b.m3u8".

(** Two fetches in flight at once: fetch 2 clears the dictionary and gets
    its response while fetch 1 is still between its navigation and its
    analysis. *)
Definition overlapping : list event :=
  [Clear 1; Respond 1 (mkResponse "xhr" (Ok url_a));
   Clear 2; Respond 2 (mkResponse "xhr" (Ok url_b));
   Analyze 1; Analyze 2].

(** C1, on the code.  The client has one dictionary for all fetches.  In the
    schedule above the pipeline of fetch 1 is handed a dictionary that has
    lost the response of fetch 1 and holds the response of fetch 2, and its
    captured-response analysis returns the URL that belongs to fetch 2. *)
Theorem shared_dictionary_leaks :
  run [] overlapping = [(1%nat, [(url_b, url_b)]); (2%nat, [(url_b, url_b)])] /\
  own_urls 1 overlapping = [url_a] /\
  _analyze_xhr_responses [(url_b, url_b)] = Some url_b /\
  ~ leak_free [] overlapping.
Proof.
  split; [reflexivity |]. split; [reflexivity |]. split; [reflexivity |].
  intros H.
  specialize (H 1%nat [(url_b, url_b)] url_b (or_introl eq_refl) (or_introl eq_refl)).
  cbn in H. destruct H as [H | []]. discriminate H.
Qed.

End ClientFacts.

(** ** main.py *)

Module Main.

Import PyStr Client.
Open Scope py_scope.

(** [process_url]: the caller of [fetch_and_extract] in a batch. *)
Definition process_url (w : world) (c : BrowserClient) (env : fetch_env)
  : world * BrowserClient * result (option string) :=
  let '(w', c', fetched) := fetch_and_extract w c env in
  (w', c',
   try_except
     (download_url <- fetched ;;
      if truthy_opt download_url then Ok download_url else Ok None)
     (fun _ => Ok None)).

End Main.

Module MainFacts.

Import PyStr Client ClientFacts Main.

(** Whatever [fetch_and_extract] raises of class [Exception], the page-open
    failure included, ends in [process_url] as [None]. *)
Lemma process_url_absorbs (w : world) (c : BrowserClient) (env : fetch_env)
      (n : string) :
  outcome (process_url w c env) <> Raise (PyException n).
Proof.
  unfold outcome, process_url.
  destruct (fetch_and_extract w c env) as [[w' c'] [r|[m|m]]]; cbn;
    try discriminate.
  destruct (truthy_opt r); discriminate.
Qed.

Lemma process_url_page_open_failure :
  outcome (process_url fresh_world fresh_client env_page_fails) = Ok None.
Proof. vm_compute. reflexivity. Qed.

End MainFacts.

(** ** Further properties of extractor.py *)

Module ExtractorMore.

Import PyStr Extractor ExtractorFacts.
Open Scope string_scope.
Open Scope list_scope.

(** *** Failures inside the static-selector scan *)

Lemma try_except_caught {A : Type} (body : result A) (a : A) (n : string) :
  try_except body (fun _ => Ok a) <> Raise (PyException n).
Proof. destruct body as [x|[m|m]]; cbn; discriminate. Qed.

Lemma popup_loop_no_exception (p : page) (sels : list string) (n : string) :
  popup_loop p sels <> Raise (PyException n).
Proof.
  induction sels as [|sel rest IH]; cbn [popup_loop]; [discriminate |].
  unfold popup_try.
  pose proof (try_except_caught
    (bind (query_selector p sel)
       (fun element =>
          match element with
          | Some el =>
              bind (get_attribute el "href")
                (fun href =>
                   if and_valid href _is_valid_download_url
                   then Ok href else Ok None)
          | None => Ok None
          end)) None n) as Hc.
  destruct (try_except _ _) as [[href|]|e]; cbn [bind].
  - discriminate.
  - exact IH.
  - intros H. apply Hc. exact H.
Qed.

Lemma selector_loop_no_exception (sels : list string) (p : page) (timeout : Z)
      (n : string) :
  selector_loop p timeout sels <> Raise (PyException n).
Proof.
  revert p. induction sels as [|sel rest IH]; intros p; cbn [selector_loop];
    [discriminate |].
  unfold selector_try.
  pose proof (try_except_caught (selector_body p timeout sel) (p, None) n) as Hc.
  destruct (try_except _ _) as [[q [url|]]|e]; cbn [bind].
  - discriminate.
  - apply IH.
  - intros H. apply Hc. exact H.
Qed.

(** X1. The static-selector scan and the popup check never raise an
    [Exception]: whatever a wait, an attribute read or a click raises is
    confined to its selector. *)
Theorem static_scan_confines_exceptions (p : page) (timeout : Z) (n : string) :
  _try_find_download_link p timeout <> Raise (PyException n) /\
  _check_for_popup_link p <> Raise (PyException n).
Proof.
  split; [apply selector_loop_no_exception | apply popup_loop_no_exception].
Qed.

(** *** Clicks *)

Definition no_element (p : page) (timeout : Z) (sel : string) : Prop :=
  wait_for_selector p sel (selector_timeout timeout) = Ok None \/
  exists e, wait_for_selector p sel (selector_timeout timeout) = Raise e.

Lemma selector_body_without_button (p p' : page) (timeout : Z) (sel : string)
      (r : option string) :
  contains "button" sel = false ->
  selector_body p timeout sel = Ok (p', r) -> p' = p.
Proof.
  intros Hb. unfold selector_body, bind. rewrite Hb. intros H.
  paths H; tidy; reflexivity.
Qed.

Lemma selector_body_no_element (p p' : page) (timeout : Z) (sel : string)
      (r : option string) :
  no_element p timeout sel ->
  selector_body p timeout sel = Ok (p', r) -> p' = p.
Proof.
  intros [Hn | [e Hn]]; unfold selector_body, bind; rewrite Hn; intros H;
    [now injection H as <- _ | discriminate H].
Qed.

Lemma selector_loop_keeps_page (sels : list string) (p p' : page) (timeout : Z)
      (r : option string) :
  (forall sel, In sel sels -> contains "button" sel = true ->
               no_element p timeout sel) ->
  selector_loop p timeout sels = Ok (p', r) -> p' = p.
Proof.
  induction sels as [|sel rest IH]; cbn [selector_loop]; intros Hno H.
  - now injection H as <- _.
  - assert (Hq : forall q r0, selector_try p timeout sel = Ok (q, r0) -> q = p).
    { intros q r0. unfold selector_try, try_except.
      destruct (selector_body p timeout sel) as [[q' r']|[m|m]] eqn:Eb;
        intros Ht; try discriminate Ht; injection Ht as <- <-; trivial.
      destruct (contains "button" sel) eqn:Ec.
      - eapply selector_body_no_element; [| exact Eb].
        apply Hno; [now left | exact Ec].
      - eapply selector_body_without_button; eassumption. }
    unfold bind in H.
    destruct (selector_try p timeout sel) as [[q [url|]]|e] eqn:Et;
      try discriminate H.
    + injection H as <- _. now apply (Hq q (Some url)).
    + assert (q = p) by now apply (Hq q None). subst q.
      apply IH; [| exact H]. intros s Hs. apply Hno. now right.
Qed.

(** X2. Of the ten selectors only [a.download-button] and
    [button.download-button] can lead to a click.  When neither of the two
    finds an element, the scan clicks nothing: the page it hands on to the
    later strategies is the page it was given. *)
Theorem click_only_behind_button_selectors (p p' : page) (timeout : Z)
        (r : option string) :
  no_element p timeout "a.download-button" ->
  no_element p timeout "button.download-button" ->
  _try_find_download_link p timeout = Ok (p', r) ->
  filter (contains "button") selectors
    = ["a.download-button"; "button.download-button"] /\
  p' = p.
Proof.
  intros Ha Hb H. split; [reflexivity |].
  apply (selector_loop_keeps_page selectors p p' timeout r); [| exact H].
  intros sel Hin Hc. unfold selectors in Hin. cbn [In] in Hin.
  repeat (destruct Hin as [<- | Hin];
          [first [exact Ha | exact Hb | discriminate Hc] |]).
  destruct Hin.
Qed.

(** A page on which only the selector [a[data-download]] finds an element. *)
Definition plain_link_page : page :=
  Page
    (fun selector _ =>
       if String.eqb selector "a[data-download]" then Ok (Some link_element)
       else Raise (PyException "TimeoutError"))
    (fun _ => Ok None)
    (fun _ => Ok []).

Lemma click_only_behind_button_selectors_witness :
  _try_find_download_link plain_link_page 15
    = Ok (plain_link_page, Some "https://site.example/download/clip.mp4") /\
  plain_link_page = plain_link_page.
Proof.
  assert (H : _try_find_download_link plain_link_page 15
              = Ok (plain_link_page,
                    Some "https://site.example/download/clip.mp4"))
    by reflexivity.
  split; [exact H |].
  refine (proj2 (click_only_behind_button_selectors
                   plain_link_page plain_link_page 15 _ _ _ H)).
  - right. eexists. reflexivity.
  - right. eexists. reflexivity.
Defined.

(** *** The captured-response analysis *)

Definition Schemed (u : string) : Prop :=
  Prefix "http://" u \/ Prefix "https://" u.

Definition Streamlike (u : string) : Prop :=
  exists m, In m [".mp4"; ".m3u8"; ".mpd"; "/media/"; "/video/"; "stream"] /\
            Substring m u.

Definition analysable (u : string) : bool :=
  any_in video_patterns u && _is_valid_download_url u.

Lemma analysable_iff (u : string) :
  analysable u = true <-> Schemed u /\ Streamlike u.
Proof.
  unfold analysable, Schemed, Streamlike.
  rewrite andb_true_iff, valid_url_iff, any_in_spec. split.
  - intros [Hs [Hp _]]. split; assumption.
  - intros [Hp [m [Hin Hs]]]. split; [exists m; now split |].
    split; [exact Hp |]. exists m. split; [| exact Hs].
    unfold valid_patterns. cbn [In] in *. tauto.
Qed.

Lemma analyze_loop_first (urls : list string) (u : string) :
  analyze_loop urls = Some u <->
  exists pre post, urls = pre ++ u :: post /\ analysable u = true /\
                   forall v, In v pre -> analysable v = false.
Proof.
  induction urls as [|url rest IH]; cbn [analyze_loop].
  - split; [discriminate |]. intros [pre [post [H _]]].
    destruct pre; discriminate H.
  - assert (Ea : (if any_in video_patterns url
                  then if _is_valid_download_url url then Some url
                       else analyze_loop rest
                  else analyze_loop rest)
                 = if analysable url then Some url else analyze_loop rest).
    { unfold analysable. destruct (any_in video_patterns url);
        destruct (_is_valid_download_url url); reflexivity. }
    rewrite Ea. clear Ea. destruct (analysable url) eqn:E.
    + split.
      * intros H. injection H as <-. exists [], rest.
        split; [reflexivity |]. split; [exact E |]. intros v [].
      * intros [pre [post [H [Hu Hpre]]]]. destruct pre as [|x pre].
        -- now injection H as ->.
        -- injection H as -> _. rewrite (Hpre x (or_introl eq_refl)) in E.
           discriminate E.
    + rewrite IH. split.
      * intros [pre [post [H [Hu Hpre]]]]. exists (url :: pre), post.
        split; [now rewrite H |]. split; [exact Hu |].
        intros v [<- | Hv]; [exact E | now apply Hpre].
      * intros [pre [post [H [Hu Hpre]]]]. destruct pre as [|x pre].
        -- injection H as -> _. congruence.
        -- injection H as -> ->. exists pre, post.
           split; [reflexivity |]. split; [exact Hu |].
           intros v Hv. apply Hpre. now right.
Qed.

Lemma analyze_loop_none (urls : list string) :
  analyze_loop urls = None <-> forall v, In v urls -> analysable v = false.
Proof.
  induction urls as [|url rest IH]; cbn [analyze_loop In].
  - split; [intros _ v [] | reflexivity].
  - unfold analysable at 1. destruct (any_in video_patterns url) eqn:Ep;
      [destruct (_is_valid_download_url url) eqn:Ev |]; cbn [andb].
    + split; [discriminate |]. intros H.
      specialize (H url (or_introl eq_refl)). unfold analysable in H.
      rewrite Ep, Ev in H. discriminate H.
    + rewrite IH. split.
      * intros H v [<- | Hv]; [unfold analysable; now rewrite Ep, Ev | now apply H].
      * intros H v Hv. apply H. now right.
    + rewrite IH. split.
      * intros H v [<- | Hv]; [unfold analysable; now rewrite Ep | now apply H].
      * intros H v Hv. apply H. now right.
Qed.

(** X3. The captured-response analysis returns the first value of the
    dictionary, in insertion order, that is an http(s) URL containing one of
    [.mp4], [.m3u8], [.mpd], [/media/], [/video/], [stream]; it returns
    nothing exactly when no value is such a URL. *)
Theorem analysis_returns_first_match (xhr : dict) :
  (forall u, _analyze_xhr_responses xhr = Some u <->
     exists pre post, values xhr = pre ++ u :: post /\
                      (Schemed u /\ Streamlike u) /\
                      forall v, In v pre -> ~ (Schemed v /\ Streamlike v)) /\
  (_analyze_xhr_responses xhr = None <->
     forall v, In v (values xhr) -> ~ (Schemed v /\ Streamlike v)).
Proof.
  assert (Hneg : forall v, analysable v = false <-> ~ (Schemed v /\ Streamlike v)).
  { intros v. rewrite <- analysable_iff. destruct (analysable v); split;
      congruence. }
  unfold _analyze_xhr_responses. split.
  - intros u. rewrite analyze_loop_first. split.
    + intros [pre [post [H [Hu Hpre]]]]. exists pre, post.
      split; [exact H |]. split; [now apply analysable_iff |].
      intros v Hv. apply Hneg. now apply Hpre.
    + intros [pre [post [H [Hu Hpre]]]]. exists pre, post.
      split; [exact H |]. split; [now apply analysable_iff |].
      intros v Hv. apply Hneg. now apply Hpre.
  - rewrite analyze_loop_none. split; intros H v Hv; apply Hneg; now apply H.
Qed.

Definition status_then_manifest : dict :=
  [("https://x/api/status", "https://x/api/status");
   ("https://x/y.m3u8", "https://x/y.m3u8")].

Lemma analysis_returns_first_match_witness :
  _analyze_xhr_responses status_then_manifest = Some "https://x/y.m3u8".
Proof.
  apply (proj2 (proj1 (analysis_returns_first_match status_then_manifest)
                  "https://x/y.m3u8")).
  exists ["https://x/api/status"], []. split; [reflexivity |]. split.
  - apply analysable_iff. reflexivity.
  - intros v [<- | []] H. apply analysable_iff in H. discriminate H.
Defined.

(** *** A page without matches *)

Lemma selector_loop_nothing (sels : list string) (p : page) (timeout : Z) :
  (forall sel, In sel sels ->
     wait_for_selector p sel (selector_timeout timeout) = Ok None \/
     exists n, wait_for_selector p sel (selector_timeout timeout)
               = Raise (PyException n)) ->
  selector_loop p timeout sels = Ok (p, None).
Proof.
  induction sels as [|sel rest IH]; intros H; cbn [selector_loop]; [reflexivity |].
  assert (Et : selector_try p timeout sel = Ok (p, None)).
  { unfold selector_try, selector_body, bind.
    destruct (H sel (or_introl eq_refl)) as [E | [n E]]; now rewrite E. }
  rewrite Et. cbn [bind]. apply IH. intros s Hs. apply H. now right.
Qed.

(** X4. On a page where no static selector finds an element (each wait
    times out or comes back empty) and that has neither video elements nor
    frames, the pipeline returns what the captured-response analysis finds,
    and nothing when that finds nothing; it does not raise. *)
Theorem pipeline_on_bare_page (p : page) (xhr : dict) (timeout : Z) :
  (forall sel, In sel selectors ->
     wait_for_selector p sel (selector_timeout timeout) = Ok None \/
     exists n, wait_for_selector p sel (selector_timeout timeout)
               = Raise (PyException n)) ->
  query_selector_all p "video" = Ok [] ->
  query_selector_all p "iframe" = Ok [] ->
  extract_download_url p xhr timeout = Ok (_analyze_xhr_responses xhr).
Proof.
  intros Hsel Hv Hf. unfold extract_download_url, _try_find_download_link.
  rewrite (selector_loop_nothing selectors p timeout Hsel). cbn [bind truthy_opt].
  pose proof (analyze_accepted xhr) as A.
  destruct (_analyze_xhr_responses xhr) as [u|].
  - now rewrite (accepted_truthy _ _ _ A eq_refl).
  - cbn [truthy_opt]. unfold _extract_from_video_source, _extract_from_iframe.
    rewrite Hv, Hf. reflexivity.
Qed.

(** A page on which nothing is found. *)
Definition bare_page : page :=
  Page (fun _ _ => Raise (PyException "TimeoutError"))
       (fun _ => Ok None)
       (fun _ => Ok []).

Lemma pipeline_on_bare_page_witness :
  extract_download_url bare_page captured_manifest 15 = Ok (Some "https://x/y.m3u8") /\
  extract_download_url bare_page [] 15 = Ok None.
Proof.
  assert (Hsel : forall sel, In sel selectors ->
            wait_for_selector bare_page sel (selector_timeout 15) = Ok None \/
            exists n, wait_for_selector bare_page sel (selector_timeout 15)
                      = Raise (PyException n)).
  { intros sel _. right. now exists "TimeoutError". }
  split.
  - exact (pipeline_on_bare_page bare_page captured_manifest 15 Hsel
             eq_refl eq_refl).
  - exact (pipeline_on_bare_page bare_page [] 15 Hsel eq_refl eq_refl).
Defined.

(** *** Failures in the media-element and frame scans *)

(** X5. Unlike the static scan, the media-element scan and the frame scan
    confine nothing: when the earlier strategies found nothing, whatever the
    query for video elements or the read of the first video's [src] raises
    leaves [extract_download_url], and so does what the frame scan raises
    once the media scan found nothing; the remaining elements and strategies
    are not tried. *)
Theorem media_and_frame_failures_abort (p p1 : page) (xhr : dict) (timeout : Z)
        (e : exn) :
  _try_find_download_link p timeout = Ok (p1, None) ->
  _analyze_xhr_responses xhr = None ->
  (query_selector_all p1 "video" = Raise e ->
   extract_download_url p xhr timeout = Raise e) /\
  (forall v rest, query_selector_all p1 "video" = Ok (v :: rest) ->
     get_attribute v "src" = Raise e ->
     extract_download_url p xhr timeout = Raise e) /\
  (_extract_from_video_source p1 = Ok None ->
   query_selector_all p1 "iframe" = Raise e ->
   extract_download_url p xhr timeout = Raise e) /\
  (forall f rest, _extract_from_video_source p1 = Ok None ->
     query_selector_all p1 "iframe" = Ok (f :: rest) ->
     get_attribute f "src" = Raise e ->
     extract_download_url p xhr timeout = Raise e).
Proof.
  intros H1 H2. unfold extract_download_url. rewrite H1, H2. cbn [bind truthy_opt].
  split; [| split; [| split]].
  - intros Hq. unfold _extract_from_video_source. now rewrite Hq.
  - intros v rest Hq Hs. unfold _extract_from_video_source. rewrite Hq.
    cbn [bind video_loop]. now rewrite Hs.
  - intros Hv Hq. rewrite Hv. cbn [bind truthy_opt].
    unfold _extract_from_iframe. now rewrite Hq.
  - intros f rest Hv Hq Hs. rewrite Hv. cbn [bind truthy_opt].
    unfold _extract_from_iframe. rewrite Hq. cbn [bind iframe_loop].
    now rewrite Hs.
Qed.

(** A page with two video elements: reading the [src] of the first fails,
    the second has a valid [src]. *)
Definition broken_video : element :=
  Element (fun _ => Raise (PyException "Error")) (Raise (PyException "Error"))
          (fun _ => Ok []).

Definition good_video : element :=
  Element (fun name =>
             if String.eqb name "src"
             then Ok (Some "https://cdn.example.com/video/abc.mp4")
             else Ok None)
          (Raise (PyException "Error"))
          (fun _ => Ok []).

Definition two_video_page : page :=
  Page (fun _ _ => Raise (PyException "TimeoutError"))
       (fun _ => Ok None)
       (fun selector =>
          if String.eqb selector "video" then Ok [broken_video; good_video]
          else Ok []).

Lemma media_and_frame_failures_abort_witness :
  extract_download_url two_video_page [] 15 = Raise (PyException "Error").
Proof.
  exact (proj1 (proj2 (media_and_frame_failures_abort
                         two_video_page two_video_page [] 15
                         (PyException "Error") eq_refl eq_refl))
           broken_video [good_video] eq_refl eq_refl).
Defined.

(** *** The order of the media-element scan *)

(** Every [src] the scan could read, in the order in which it reads them:
    for each video element its own, then those of its [source] children. *)
Fixpoint source_candidates (sources : list element)
  : result (list (option string)) :=
  match sources with
  | [] => Ok []
  | source :: rest =>
      bind (get_attribute source "src") (fun src =>
      bind (source_candidates rest) (fun more => Ok (src :: more)))
  end.

Fixpoint video_candidates (videos : list element)
  : result (list (option string)) :=
  match videos with
  | [] => Ok []
  | video :: rest =>
      bind (get_attribute video "src") (fun src =>
      bind (el_query_selector_all video "source") (fun sources =>
      bind (source_candidates sources) (fun inner =>
      bind (video_candidates rest) (fun more =>
      Ok (src :: inner ++ more)))))
  end.

Definition first_valid (candidates : list (option string)) : option string :=
  match find (fun c => and_valid c _is_valid_download_url) candidates with
  | Some c => c
  | None => None
  end.

Lemma first_valid_cons (c : option string) (cs : list (option string)) :
  first_valid (c :: cs)
  = if and_valid c _is_valid_download_url then c else first_valid cs.
Proof.
  unfold first_valid. cbn [find].
  now destruct (and_valid c _is_valid_download_url).
Qed.

Lemma first_valid_app (cs ds : list (option string)) :
  first_valid (cs ++ ds)
  = match first_valid cs with
    | Some u => Some u
    | None => first_valid ds
    end.
Proof.
  induction cs as [|c cs IH]; [reflexivity |].
  cbn [app]. rewrite !first_valid_cons.
  destruct (and_valid c _is_valid_download_url) eqn:E; [| exact IH].
  apply and_valid_true in E. destruct E as [u [-> _]]. reflexivity.
Qed.

Lemma source_loop_first_valid (sources : list element)
      (cs : list (option string)) :
  source_candidates sources = Ok cs -> source_loop sources = Ok (first_valid cs).
Proof.
  revert cs. induction sources as [|s rest IH]; intros cs H.
  - injection H as <-. reflexivity.
  - cbn [source_candidates source_loop] in *. unfold bind in *.
    destruct (get_attribute s "src") as [src|e]; [| discriminate H].
    destruct (source_candidates rest) as [more|e]; [| discriminate H].
    injection H as <-. rewrite first_valid_cons.
    destruct (and_valid src _is_valid_download_url); [reflexivity |].
    now apply IH.
Qed.

Lemma video_loop_first_valid (videos : list element)
      (cs : list (option string)) :
  video_candidates videos = Ok cs -> video_loop videos = Ok (first_valid cs).
Proof.
  revert cs. induction videos as [|v rest IH]; intros cs H.
  - injection H as <-. reflexivity.
  - cbn [video_candidates video_loop] in *. unfold bind in *.
    destruct (get_attribute v "src") as [src|e]; [| discriminate H].
    destruct (el_query_selector_all v "source") as [sources|e];
      [| discriminate H].
    destruct (source_candidates sources) as [inner|e] eqn:Ei;
      [| discriminate H].
    destruct (video_candidates rest) as [more|e]; [| discriminate H].
    injection H as <-. rewrite first_valid_cons.
    destruct (and_valid src _is_valid_download_url); [reflexivity |].
    rewrite (source_loop_first_valid sources inner Ei), first_valid_app.
    destruct (first_valid inner); [reflexivity |]. now apply IH.
Qed.

(** X29. When every [src] of the video elements and of their [source]
    children can be read, the media-element scan returns the first valid
    download URL among them in document order, a video's own [src] before
    those of its children, and nothing when none is valid. *)
Theorem media_scan_takes_first_valid (p : page) (videos : list element)
        (cs : list (option string)) :
  query_selector_all p "video" = Ok videos ->
  video_candidates videos = Ok cs ->
  _extract_from_video_source p = Ok (first_valid cs) /\
  (forall u, first_valid cs = Some u ->
     exists before after,
       cs = before ++ Some u :: after /\ _is_valid_download_url u = true /\
       forall c, In c before -> and_valid c _is_valid_download_url = false) /\
  (first_valid cs = None ->
     forall u, In (Some u) cs -> u <> "" -> _is_valid_download_url u = false).
Proof.
  intros Hq Hc. split; [| split].
  - unfold _extract_from_video_source. rewrite Hq. cbn [bind].
    exact (video_loop_first_valid videos cs Hc).
  - clear. induction cs as [|c cs IH]; intros u H; [discriminate H |].
    rewrite first_valid_cons in H.
    destruct (and_valid c _is_valid_download_url) eqn:E.
    + subst c. exists [], cs. split; [reflexivity |]. split.
      * cbn [and_valid] in E. apply andb_true_iff in E. exact (proj2 E).
      * intros c [].
    + destruct (IH u H) as [before [after [-> [Hv Hb]]]].
      exists (c :: before), after. split; [reflexivity |]. split; [exact Hv |].
      intros c' [<- | Hc']; [exact E | now apply Hb].
  - clear. induction cs as [|c cs IH]; intros H u Hin Hne; [destruct Hin |].
    rewrite first_valid_cons in H.
    destruct (and_valid c _is_valid_download_url) eqn:E.
    + apply and_valid_true in E. destruct E as [s [-> _]]. discriminate H.
    + destruct Hin as [-> | Hin]; [| now apply IH].
      cbn [and_valid] in E. apply andb_false_iff in E.
      destruct E as [E | E]; [| exact E].
      destruct u; [congruence | discriminate E].
Qed.

Lemma media_scan_takes_first_valid_witness :
  _extract_from_video_source
    (Page (fun _ _ => Raise (PyException "TimeoutError")) (fun _ => Ok None)
          (fun _ => Ok [good_video]))
  = Ok (Some "https://cdn.example.com/video/abc.mp4").
Proof.
  exact (proj1 (media_scan_takes_first_valid
                  (Page (fun _ _ => Raise (PyException "TimeoutError"))
                        (fun _ => Ok None) (fun _ => Ok [good_video]))
                  [good_video]
                  [Some "https://cdn.example.com/video/abc.mp4"]
                  eq_refl eq_refl)).
Defined.


(** *** The frame allow-list *)

(** X6. A frame source is accepted exactly when one of the nine host
    fragments occurs in it; no scheme and no media marker is asked for, so
    the frame scan can return a string that the validity predicate
    rejects. *)
Theorem iframe_source_spec :
  (forall u : string,
     _is_iframe_video_source u = true <->
     exists h, In h ["youtube.com/embed"; "player.vimeo.com";
                     "dailymotion.com/embed"; "streamable.com/e"; "jwplayer";
                     "brightcove"; "vidyard"; "wistia"; "videojs"] /\
               Substring h u) /\
  (exists u, _is_iframe_video_source u = true /\
             _is_valid_download_url u = false).
Proof.
  split.
  - intros u. unfold _is_iframe_video_source.
    rewrite <- (any_in_spec video_hosts u).
    destruct (truthy u) eqn:Ht; cbn [negb]; [reflexivity |].
    split; [discriminate |]. intros H. apply any_in_spec in H.
    destruct H as [h [Hin [pre [post Hs]]]]. destruct u; [| discriminate Ht].
    destruct pre; [| discriminate Hs].
    unfold video_hosts in Hin. cbn [In] in Hin.
    repeat (destruct Hin as [<- | Hin]; [discriminate Hs |]). destruct Hin.
  - exists "//player.vimeo.com/video/1". split; reflexivity.
Qed.

End ExtractorMore.

(** ** Further properties of class BrowserClient *)

Module ClientMore.

Import PyStr Extractor ExtractorFacts ExtractorMore Utils UtilsFacts Client
       ClientFacts.
Open Scope string_scope.
Open Scope list_scope.

(** *** What the listener stores *)

Lemma string_app_assoc (s1 s2 s3 : string) :
  ((s1 ++ s2) ++ s3 = s1 ++ (s2 ++ s3))%string.
Proof. induction s1 as [|c s1 IH]; cbn; [reflexivity | now rewrite IH]. Qed.

Lemma Substring_trans (a b u : string) :
  Substring a b -> Substring b u -> Substring a u.
Proof.
  intros [p1 [q1 ->]] [p2 [q2 ->]].
  exists (p2 ++ p1)%string, (q1 ++ q2)%string.
  now rewrite !string_app_assoc.
Qed.

Lemma valid_pattern_captured (m : string) :
  In m valid_patterns -> exists c, In c capture_patterns /\ Substring c m.
Proof.
  unfold valid_patterns. cbn [In]. intros H.
  assert (T : forall c, In c capture_patterns -> contains c m = true ->
                        exists c, In c capture_patterns /\ Substring c m).
  { intros c Hc Hm. exists c. split; [exact Hc | now apply contains_Substring]. }
  repeat (destruct H as [<- | H];
          [first [ apply (T "m3u8"); [cbn; tauto | reflexivity]
                 | apply (T "mpd"); [cbn; tauto | reflexivity]
                 | apply (T "video"); [cbn; tauto | reflexivity]
                 | apply (T "media"); [cbn; tauto | reflexivity]
                 | apply (T "stream"); [cbn; tauto | reflexivity]
                 | apply (T "mp4"); [cbn; tauto | reflexivity]
                 | apply (T "download"); [cbn; tauto | reflexivity] ] |]).
  destruct H.
Qed.

Lemma valid_any_capture (u : string) :
  _is_valid_download_url u = true -> any_in capture_patterns u = true.
Proof.
  intros H. apply valid_url_iff in H. destruct H as [_ [m [Hin Hs]]].
  destruct (valid_pattern_captured m Hin) as [c [Hc Hcm]].
  apply any_in_spec. exists c. split; [exact Hc |].
  exact (Substring_trans c m u Hcm Hs).
Qed.

Lemma setitem_In (d : dict) (k v : string) : In (k, v) (setitem d k v).
Proof.
  induction d as [|[k0 v0] d IH]; cbn [setitem]; [now left |].
  destruct (String.eqb k0 k) eqn:E.
  - apply String.eqb_eq in E. subst. now left.
  - right. exact IH.
Qed.

(** X7. The capture filter is no narrower than the validity predicate: a
    response of kind fetch, xhr or media whose URL is a valid download URL is
    always stored, under its URL and with its URL as the value. *)
Theorem valid_response_is_stored (u kind : string) (xhr : dict) :
  In kind ["fetch"; "xhr"; "media"] ->
  _is_valid_download_url u = true ->
  In (u, u) (_handle_response xhr (mkResponse kind (Ok u))).
Proof.
  intros Hk Hv. unfold _handle_response. cbn [resource_type url].
  assert (E : existsb (String.eqb kind) captured_kinds = true).
  { apply existsb_exists. exists kind. split; [exact Hk | apply String.eqb_refl]. }
  rewrite E, (valid_any_capture u Hv). apply setitem_In.
Qed.

Lemma valid_response_is_stored_witness :
  In ("https://cdn.example.com/video/abc.mp4",
      "https://cdn.example.com/video/abc.mp4")
     (_handle_response captured_manifest
        (mkResponse "media" (Ok "https://cdn.example.com/video/abc.mp4"))).
Proof.
  apply (valid_response_is_stored "https://cdn.example.com/video/abc.mp4"
           "media" captured_manifest).
  - cbn. tauto.
  - reflexivity.
Defined.

(** *** The dictionary as a set in first-seen order *)

(** The URL under which the listener stores a response, if it stores it. *)
Definition stored_url (r : response) : option string :=
  if existsb (String.eqb (resource_type r)) captured_kinds then
    match url r with
    | Ok u => if any_in capture_patterns u then Some u else None
    | Raise _ => None
    end
  else None.

Fixpoint stored_urls (rs : list response) : list string :=
  match rs with
  | [] => []
  | r :: rest =>
      match stored_url r with
      | Some u => u :: stored_urls rest
      | None => stored_urls rest
      end
  end.

Lemma handle_response_stored (xhr : dict) (r : response) :
  _handle_response xhr r
  = match stored_url r with Some u => setitem xhr u u | None => xhr end.
Proof.
  unfold _handle_response, stored_url.
  destruct (existsb _ captured_kinds); trivial.
  destruct (url r); trivial. destruct (any_in capture_patterns a); trivial.
Qed.

Lemma keys_setitem_eq (d : dict) (k v : string) :
  keys (setitem d k v)
  = if existsb (String.eqb k) (keys d) then keys d else keys d ++ [k].
Proof.
  induction d as [|[k0 v0] d IH]; cbn [setitem keys map fst existsb app];
    [reflexivity |].
  rewrite (String.eqb_sym k k0). destruct (String.eqb k0 k) eqn:E; cbn [orb].
  - reflexivity.
  - cbn [keys map fst]. fold (keys (setitem d k v)) (keys d). rewrite IH.
    destruct (existsb (String.eqb k) (keys d)); reflexivity.
Qed.

Definition mirrored (d : dict) : Prop := forall k v, In (k, v) d -> k = v.

Lemma setitem_mirrored (d : dict) (u : string) :
  mirrored d -> mirrored (setitem d u u).
Proof.
  induction d as [|[k0 v0] d IH]; cbn [setitem]; intros M k v.
  - intros [H | []]. now injection H as <- <-.
  - destruct (String.eqb k0 u) eqn:E.
    + apply String.eqb_eq in E. subst k0. intros [H | H].
      * now injection H as <- <-.
      * apply M. now right.
    + intros [H | H].
      * apply M. now left.
      * apply IH; [| exact H]. intros k' v' H'. apply M. now right.
Qed.

Lemma handle_all_mirrored (rs : list response) (d : dict) :
  mirrored d -> mirrored (handle_all d rs).
Proof.
  revert d. induction rs as [|r rs IH]; intros d M; [exact M |].
  cbn [handle_all fold_left]. apply IH. rewrite handle_response_stored.
  destruct (stored_url r); [now apply setitem_mirrored | exact M].
Qed.

Lemma mirrored_values (d : dict) : mirrored d -> values d = keys d.
Proof.
  induction d as [|[k v] d IH]; intros M; [reflexivity |].
  cbn [values keys map fst snd]. fold (values d) (keys d).
  rewrite IH; [| intros k' v' H; apply M; now right].
  now rewrite (M k v (or_introl eq_refl)).
Qed.

Lemma first_occurrences_from_ext (l b1 b2 : list string) :
  (forall x, In x b1 <-> In x b2) ->
  first_occurrences_from b1 l = first_occurrences_from b2 l.
Proof.
  revert b1 b2. induction l as [|x xs IH]; intros b1 b2 H; [reflexivity |].
  cbn [first_occurrences_from].
  assert (E : existsb (String.eqb x) b1 = existsb (String.eqb x) b2).
  { apply bool_eq_iff. rewrite !existsb_eqb_In. apply H. }
  rewrite E.
  assert (IH' : first_occurrences_from (b1 ++ [x]) xs
                = first_occurrences_from (b2 ++ [x]) xs).
  { apply IH. intros y. rewrite !in_app_iff, H. reflexivity. }
  now rewrite IH'.
Qed.

Lemma handle_all_keys_order (rs : list response) (d : dict) :
  keys (handle_all d rs)
  = keys d ++ first_occurrences_from (keys d) (stored_urls rs).
Proof.
  revert d. induction rs as [|r rs IH]; intros d.
  - cbn. now rewrite app_nil_r.
  - cbn [handle_all fold_left stored_urls]. fold (handle_all (_handle_response d r) rs).
    rewrite IH, handle_response_stored.
    destruct (stored_url r) as [u|]; [| reflexivity].
    cbn [first_occurrences_from]. rewrite keys_setitem_eq.
    destruct (existsb (String.eqb u) (keys d)) eqn:E.
    + f_equal. apply first_occurrences_from_ext. intros x.
      rewrite in_app_iff. cbn [In]. apply existsb_eqb_In in E.
      split; [tauto |]. intros [H | [<- | []]]; assumption.
    + now rewrite <- app_assoc.
Qed.

Lemma captured_keys_values (rs : list response) :
  keys (handle_all [] rs) = first_occurrences (stored_urls rs) /\
  values (handle_all [] rs) = keys (handle_all [] rs).
Proof.
  split; [rewrite handle_all_keys_order; reflexivity |].
  apply mirrored_values. apply handle_all_mirrored. intros k v [].
Qed.

(** X8. The dictionary the handlers fill after a [clear()] behaves as a set
    in first-seen order: its keys are the stored URLs, each once, in the
    order in which they were first seen, and every value is its key (so a
    response seen again changes nothing). *)
Theorem captured_is_first_seen_set (rs : list response) :
  keys (handle_all [] rs) = first_occurrences (stored_urls rs) /\
  values (handle_all [] rs) = keys (handle_all [] rs) /\
  NoDup (keys (handle_all [] rs)) /\
  (forall r, In r rs ->
     _handle_response (handle_all [] rs) r = handle_all [] rs).
Proof.
  assert (K : keys (handle_all [] rs) = first_occurrences (stored_urls rs)).
  { rewrite handle_all_keys_order. reflexivity. }
  assert (M : mirrored (handle_all [] rs)).
  { apply handle_all_mirrored. intros k v []. }
  split; [exact K |]. split; [now apply mirrored_values |].
  split; [rewrite K; apply first_occurrences_from_NoDup |].
  intros r Hr. rewrite handle_response_stored.
  destruct (stored_url r) as [u|] eqn:Es; [| reflexivity].
  assert (Hu : In u (keys (handle_all [] rs))).
  { rewrite K. unfold first_occurrences.
    apply first_occurrences_from_In. split; [| tauto].
    clear K M. induction rs as [|r0 rs IH]; [destruct Hr |].
    cbn [stored_urls]. destruct Hr as [-> | Hr].
    - rewrite Es. now left.
    - destruct (stored_url r0); [right |]; now apply IH. }
  revert Hu M. generalize (handle_all [] rs) as d.
  induction d as [|[k0 v0] d IH]; cbn [keys map fst In setitem]; [tauto |].
  intros Hu M. destruct (String.eqb k0 u) eqn:E.
  - apply String.eqb_eq in E. subst k0.
    now rewrite <- (M u v0 (or_introl eq_refl)).
  - destruct Hu as [-> | Hu]; [now rewrite String.eqb_refl in E |].
    f_equal. apply IH; [exact Hu |]. intros k v H. apply M. now right.
Qed.

Definition manifest_response : response :=
  mkResponse "xhr" (Ok "https://x/y.m3u8").

Definition script_response : response :=
  mkResponse "script" (Ok "https://x/video.js").

Lemma captured_is_first_seen_set_witness :
  handle_all [] [manifest_response; script_response; manifest_response]
    = [("https://x/y.m3u8", "https://x/y.m3u8")] /\
  _handle_response
    (handle_all [] [manifest_response; script_response; manifest_response])
    manifest_response
  = handle_all [] [manifest_response; script_response; manifest_response].
Proof.
  split; [reflexivity |].
  apply (proj2 (proj2 (proj2 (captured_is_first_seen_set
           [manifest_response; script_response; manifest_response])))).
  now left.
Defined.

(** *** The analysis of what was captured *)

(** The readable URLs of the responses of kind fetch, xhr or media. *)
Fixpoint watched_urls (rs : list response) : list string :=
  match rs with
  | [] => []
  | r :: rest =>
      if existsb (String.eqb (resource_type r)) captured_kinds then
        match url r with
        | Ok u => u :: watched_urls rest
        | Raise _ => watched_urls rest
        end
      else watched_urls rest
  end.

Lemma analyze_loop_find (urls : list string) :
  analyze_loop urls = find analysable urls.
Proof.
  induction urls as [|u rest IH]; [reflexivity |].
  cbn [analyze_loop find]. unfold analysable at 1.
  destruct (any_in video_patterns u); cbn [andb]; [| exact IH].
  destruct (_is_valid_download_url u); [reflexivity | exact IH].
Qed.

Lemma find_first_occurrences_from (f : string -> bool) (l before : list string) :
  (forall x, In x before -> f x = false) ->
  find f (first_occurrences_from before l) = find f l.
Proof.
  revert before. induction l as [|x xs IH]; intros before Hb; [reflexivity |].
  cbn [first_occurrences_from find].
  assert (Hb' : f x = false -> forall y, In y (before ++ [x]) -> f y = false).
  { intros Hx y Hy. apply in_app_iff in Hy.
    destruct Hy as [Hy | [<- | []]]; [now apply Hb | exact Hx]. }
  destruct (existsb (String.eqb x) before) eqn:E.
  - apply existsb_eqb_In in E. rewrite (Hb x E). apply IH. apply Hb'.
    now apply Hb.
  - cbn [find]. destruct (f x) eqn:Ef; [reflexivity |]. apply IH. now apply Hb'.
Qed.

Lemma find_stored_watched (rs : list response) :
  find analysable (stored_urls rs) = find analysable (watched_urls rs).
Proof.
  induction rs as [|r rs IH]; [reflexivity |].
  cbn [stored_urls watched_urls]. unfold stored_url.
  destruct (existsb _ captured_kinds); [| exact IH].
  destruct (url r) as [u|e]; [| exact IH].
  destruct (any_in capture_patterns u) eqn:Ec; cbn [find]; [now rewrite IH |].
  destruct (analysable u) eqn:Ea; [| exact IH].
  unfold analysable in Ea. apply andb_true_iff in Ea. destruct Ea as [_ Ev].
  apply valid_any_capture in Ev. congruence.
Qed.

(** X9. After a [clear()], the captured-response analysis returns the URL of
    the earliest response of kind fetch, xhr or media whose URL is an
    http(s) URL containing one of [.mp4], [.m3u8], [.mpd], [/media/],
    [/video/], [stream]: neither the listener's own filter nor the order of
    the dictionary loses or reorders a candidate. *)
Theorem analysis_of_captured (rs : list response) :
  _analyze_xhr_responses (handle_all [] rs) = find analysable (watched_urls rs) /\
  (forall u, analysable u = true <-> Schemed u /\ Streamlike u).
Proof.
  split; [| exact analysable_iff].
  unfold _analyze_xhr_responses.
  destruct (captured_keys_values rs) as [K V].
  rewrite V, K, analyze_loop_find. unfold first_occurrences.
  rewrite find_first_occurrences_from by (intros x []).
  apply find_stored_watched.
Qed.

End ClientMore.

(** ** Further properties of class RateLimiter *)

Module LimiterMore.

Import Limiter LimiterFacts.
Open Scope list_scope.
Open Scope Q_scope.

(** Induction over a run of calls, for any invariant of a single call. *)
Lemma run_invariant (I : Q -> RateLimiter -> list Q -> Prop) :
  (forall clock rl stamps c rl' T,
      I clock rl stamps -> 0 <= idle c -> 0 <= lag c ->
      wait_for_request rl (clock + idle c) (lag c) = Ok (rl', T) ->
      I T rl' (stamps ++ [T])) ->
  forall calls clock rl rl' stamps new_stamps,
    I clock rl stamps -> well_timed calls ->
    acquire_all clock rl calls = Ok (rl', new_stamps) ->
    exists clock', I clock' rl' (stamps ++ new_stamps).
Proof.
  intros Hstep.
  induction calls as [|c rest IH]; intros clock rl rl' stamps new_stamps Hi Hw Hrun.
  - injection Hrun as <- <-. exists clock. now rewrite app_nil_r.
  - cbn [acquire_all] in Hrun. unfold bind in Hrun.
    destruct (wait_for_request rl (clock + idle c) (lag c)) as [[rl1 T]|e] eqn:E1;
      [| discriminate].
    destruct (acquire_all T rl1 rest) as [[rl2 more]|e] eqn:E2; [| discriminate].
    injection Hrun as <- <-.
    inversion Hw as [|? ? [Hidle Hlag] Hw']; subst.
    pose proof (Hstep _ _ _ _ _ _ Hi Hidle Hlag E1) as Hi1.
    destruct (IH _ _ _ _ _ Hi1 Hw' E2) as [clock' Hi2].
    exists clock'. now rewrite <- app_assoc in Hi2.
Qed.

(** *** Completion and waiting time of one call *)




(** X11. A call does not wait without need: when fewer than the cap of
    timestamps lie in the last 60 seconds and the latest of them is at least
    the delay old, the timestamp recorded is the time of the call plus the
    scheduling lag only. *)
Theorem no_wait_when_permitted (rl rl' : RateLimiter) (t lag T : Q) :
  (Z.of_nat (List.length (kept rl t)) < max_requests_per_minute rl)%Z ->
  (forall x, In x (kept rl t) ->
             x + inject_Z (delay_between_requests rl) <= t) ->
  wait_for_request rl t lag = Ok (rl', T) ->
  T == t + lag /\ request_times rl' = kept rl t ++ [T].
Proof.
  intros Hcap Hdel. unfold wait_for_request. fold (kept rl t).
  apply Z.leb_gt in Hcap. rewrite Hcap. cbn [bind].
  destruct (kept rl t) as [|t0 rest] eqn:Ek.
  - cbn [bind]. intros H. injection H as <- <-. split; [reflexivity |].
    reflexivity.
  - destruct (py_max (t0 :: rest)) as [latest|e] eqn:Emax; [| discriminate Emax].
    apply py_max_spec in Emax. destruct Emax as [Hlin _].
    specialize (Hdel latest Hlin). cbn [bind].
    assert (Ed : Qlt_bool (t - latest) (inject_Z (delay_between_requests rl))
                 = false) by (apply Qlt_bool_false; lra).
    rewrite Ed. intros H. injection H as <- <-. split; reflexivity.
Qed.

Lemma no_wait_when_permitted_witness :
  wait_for_request (mkRateLimiter 5 2 [0]) 7 0
    = Ok (mkRateLimiter 5 2 [0; 7 + 0], 7 + 0) /\
  7 + 0 == 7 + 0.
Proof.
  assert (H : wait_for_request (mkRateLimiter 5 2 [0]) 7 0
              = Ok (mkRateLimiter 5 2 [0; 7 + 0], 7 + 0))
    by (vm_compute; reflexivity).
  split; [exact H |].
  refine (proj1 (no_wait_when_permitted (mkRateLimiter 5 2 [0]) _ 7 0 _ _ _ H)).
  - vm_compute. reflexivity.
  - intros x Hx. vm_compute in Hx. destruct Hx as [<- | []].
    unfold Qle; cbn; lia.
Defined.

(** X12. With a cap of zero or less nothing is ever let through: on a
    limiter that holds no timestamp every call raises [ValueError] (from
    [min] of an empty list), so a run of calls on a new limiter fails at its
    first call and records nothing. *)
Theorem nonpositive_cap_always_raises (d M : Z) (clock : Q) (c : call)
        (rest : list call) :
  (M <= 0)%Z ->
  wait_for_request (new d M) (clock + idle c) (lag c)
    = Raise (PyException "ValueError") /\
  acquire_all clock (new d M) (c :: rest) = Raise (PyException "ValueError").
Proof.
  intros HM.
  assert (E : wait_for_request (new d M) (clock + idle c) (lag c)
              = Raise (PyException "ValueError")).
  { unfold wait_for_request, new. cbn [request_times filter List.length
      max_requests_per_minute].
    assert (El : (M <=? Z.of_nat 0)%Z = true) by (apply Z.leb_le; cbn; lia).
    rewrite El. reflexivity. }
  split; [exact E |]. cbn [acquire_all]. now rewrite E.
Qed.

Lemma nonpositive_cap_always_raises_witness :
  acquire_all 0 (new 5 0) sample_calls = Raise (PyException "ValueError").
Proof.
  refine (proj2 (nonpositive_cap_always_raises 5 0 0 (mkCall 0 0) _ _)). lia.
Defined.

(** *** Order and density of the recorded timestamps *)

Lemma sorted_snoc (l : list Q) (a : Q) :
  StronglySorted Qle l -> Forall (fun x => x <= a) l ->
  StronglySorted Qle (l ++ [a]).
Proof.
  induction l as [|x l IH]; intros Hs Hf; cbn [app].
  - constructor; constructor.
  - inversion Hs as [|? ? Hs' Hx]; subst. inversion Hf as [|? ? Hxa Hf']; subst.
    constructor; [now apply IH |].
    apply Forall_app. split; [exact Hx | now constructor].
Qed.

Lemma sorted_app_le (l1 l2 : list Q) :
  StronglySorted Qle (l1 ++ l2) ->
  forall x y, In x l1 -> In y l2 -> x <= y.
Proof.
  induction l1 as [|a l1 IH]; intros Hs x y Hx Hy; [destruct Hx |].
  cbn [app] in Hs. inversion Hs as [|? ? Hs' Ha]; subst.
  destruct Hx as [<- | Hx].
  - rewrite Forall_forall in Ha. apply Ha. apply in_app_iff. now right.
  - now apply (IH Hs' x y).
Qed.

(** The state of a run: consistent with the cap, recorded in time order,
    and holding at most one timestamp more than the cap. *)
Record orderly (M : Z) (clock : Q) (rl : RateLimiter) (stamps : list Q)
  : Prop := {
  orderly_consistent : consistent M clock rl stamps;
  orderly_sorted : StronglySorted Qle stamps;
  orderly_bounded : (Z.of_nat (List.length (request_times rl)) <= M + 1)%Z
}.

Lemma orderly_new (d M : Z) (clock : Q) :
  (0 <= M)%Z -> orderly M clock (new d M) [].
Proof.
  intros HM. split; [now apply consistent_new | constructor | cbn; lia].
Qed.

Lemma orderly_step (M : Z) (clock : Q) (rl : RateLimiter) (stamps : list Q)
      (c : call) (rl' : RateLimiter) (T : Q) :
  orderly M clock rl stamps -> 0 <= idle c -> 0 <= lag c ->
  wait_for_request rl (clock + idle c) (lag c) = Ok (rl', T) ->
  orderly M T rl' (stamps ++ [T]).
Proof.
  intros [Hc Hs Hb] Hidle Hlag Hrun.
  destruct (wait_for_request_spec _ _ _ _ _ Hlag Hrun)
    as [_ [_ [Htimes [HT _]]]].
  split.
  - exact (consistent_step _ _ _ _ _ _ _ Hc Hidle Hlag Hrun).
  - apply sorted_snoc; [exact Hs |]. apply Forall_forall. intros x Hx.
    pose proof (stamps_past _ _ _ _ Hc x Hx). lra.
  - rewrite Htimes, length_app. cbn [List.length].
    assert (Hk : (Z.of_nat (List.length (kept rl (clock + idle c))) <= M)%Z).
    { unfold kept.
      rewrite (recent_kept _ _ _ _ Hc (clock + idle c - 60)) by lra.
      eapply Z.le_trans; [| apply (window_full _ _ _ _ Hc (clock + idle c))].
      apply inj_le. unfold window_count. apply filter_length_mono.
      intros x Hx Hlt. unfold in_window. rewrite Hlt. cbn [andb].
      apply Qle_bool_iff. pose proof (stamps_past _ _ _ _ Hc x Hx). lra. }
    lia.
Qed.

Lemma window_count_all (l : list Q) (t : Q) :
  (forall x, In x l -> in_window t x = true) ->
  window_count l t = List.length l.
Proof.
  intros H. unfold window_count. rewrite forallb_filter_id; [reflexivity |].
  apply forallb_forall. exact H.
Qed.

Lemma window_count_app (l1 l2 : list Q) (t : Q) :
  window_count (l1 ++ l2) t = (window_count l1 t + window_count l2 t)%nat.
Proof. unfold window_count. now rewrite filter_app, length_app. Qed.

(** X13. The timestamps of a run are recorded in time order, and any
    [M]+1 requests in a row span at least 60 seconds: the request that comes
    [M] places after another one is recorded at least 60 seconds after
    it.  The limiter itself never holds more than [M]+1 timestamps. *)
Theorem cap_spreads_requests (d M : Z) (clock : Q) (calls : list call)
        (rl' : RateLimiter) (stamps : list Q) :
  (0 <= M)%Z ->
  well_timed calls ->
  acquire_all clock (new d M) calls = Ok (rl', stamps) ->
  StronglySorted Qle stamps /\
  (forall pre a mid b post,
     stamps = pre ++ a :: mid ++ b :: post ->
     Z.of_nat (List.length (a :: mid)) = M ->
     a + 60 <= b) /\
  (Z.of_nat (List.length (request_times rl')) <= M + 1)%Z.
Proof.
  intros HM Hw Hrun.
  destruct (run_invariant (orderly M) (orderly_step M) calls clock (new d M)
              rl' [] stamps (orderly_new d M clock HM) Hw Hrun)
    as [clock' [Hc Hs Hb]]. cbn [app] in *.
  split; [exact Hs |]. split; [| exact Hb].
  intros pre a mid b post E Hlen.
  destruct (Qlt_le_dec b (a + 60)) as [Hlt | Hle]; [exfalso | exact Hle].
  pose proof (window_full _ _ _ _ Hc b) as Hwin.
  rewrite E in Hs, Hwin.
  change (a :: mid ++ b :: post) with ((a :: mid) ++ b :: post) in Hs, Hwin.
  (* everything from [a] to [b] lies in the window that ends at [b] *)
  assert (Hs2 : StronglySorted Qle ((a :: mid) ++ b :: post)).
  { clear -Hs. induction pre as [|x pre IH]; [exact Hs |].
    cbn [app] in Hs. inversion Hs; subst. now apply IH. }
  assert (Hmid_b : forall x, In x (a :: mid) -> x <= b).
  { intros x Hx. apply (sorted_app_le _ _ Hs2 x b Hx). now left. }
  assert (Ha_mid : forall x, In x (a :: mid) -> a <= x).
  { intros x [<- | Hx]; [apply Qle_refl |].
    cbn [app] in Hs2. inversion Hs2 as [|? ? _ Ha]; subst.
    rewrite Forall_forall in Ha. apply Ha. apply in_app_iff. now left. }
  assert (Hin : forall x, In x (a :: mid) -> in_window b x = true).
  { intros x Hx. unfold in_window. apply andb_true_iff. split.
    - apply Qlt_bool_iff. pose proof (Ha_mid x Hx). lra.
    - apply Qle_bool_iff. now apply Hmid_b. }
  assert (Hb_in : in_window b b = true).
  { unfold in_window. apply andb_true_iff. split.
    - apply Qlt_bool_iff. lra.
    - apply Qle_bool_iff. apply Qle_refl. }
  rewrite !window_count_app, (window_count_all _ _ Hin) in Hwin.
  change (b :: post) with ([b] ++ post) in Hwin.
  rewrite window_count_app in Hwin.
  assert (H1 : window_count [b] b = 1%nat).
  { unfold window_count. cbn [filter]. now rewrite Hb_in. }
  rewrite H1 in Hwin. lia.
Qed.

Definition sample_final : RateLimiter := mkRateLimiter 5 2 [5; 64; 70].

Lemma cap_spreads_requests_witness :
  StronglySorted Qle sample_stamps /\
  0 + 60 <= 64 /\
  (Z.of_nat (List.length (request_times sample_final)) <= 2 + 1)%Z.
Proof.
  assert (Hrun : acquire_all 0 (new 5 2) sample_calls
                 = Ok (sample_final, sample_stamps))
    by (vm_compute; reflexivity).
  assert (Hw : well_timed sample_calls)
    by (repeat constructor; cbn; unfold Qle; cbn; lia).
  assert (HM : (0 <= 2)%Z) by lia.
  destruct (cap_spreads_requests 5 2 0 sample_calls _ sample_stamps HM Hw Hrun)
    as [H1 [H2 H3]].
  split; [exact H1 |]. split; [| exact H3].
  exact (H2 [] 0 [5] 64 [70] eq_refl eq_refl).
Defined.

End LimiterMore.

(** ** Further properties of fetch_and_extract and process_url *)

Module FetchMore.

Import PyStr Extractor ExtractorFacts Client ClientFacts Main.
Open Scope string_scope.
Open Scope list_scope.

(** X14. What [fetch_and_extract] does not absorb once the page is open: an
    exception raised by [page.close()] replaces the outcome of the [try]
    block, whatever that was, a URL that was found included; and an
    exception that is no [Exception] (a cancellation) raised by the
    navigation passes through when the page closes normally. *)
Theorem close_failure_replaces_outcome (w : world) (c : BrowserClient)
        (env : fetch_env) (pg : page) (rl : Limiter.RateLimiter) (T : Q) :
  Limiter.wait_for_request (rate_limiter c) (limiter_clock w + idle env) (lag env)
    = Ok (rl, T) ->
  initialized c = true \/ (launch env = Ok tt /\ new_context env = Ok tt) ->
  new_page env = Ok pg ->
  (forall e, close env = Raise e ->
     outcome (fetch_and_extract w c env) = Raise e) /\
  (forall n, close env = Ok tt -> on_response env = Ok tt ->
     goto env = Raise (PyBaseException n) ->
     outcome (fetch_and_extract w c env) = Raise (PyBaseException n)).
Proof.
  intros Hlim Hinit Hpage. split.
  - intros e Hclose. unfold outcome, fetch_and_extract.
    rewrite Hlim, initialized_with_limiter.
    destruct (initialized c) eqn:Ei; cbn [negb].
    + rewrite Hpage. destruct (visit _ env pg) as [xhr body]. cbn [snd].
      unfold finally. now rewrite Hclose.
    + destruct Hinit as [Hinit | [Hl Hc]]; [discriminate |].
      unfold initialize. rewrite Hl, Hc, Hpage.
      destruct (visit _ env pg) as [xhr body]. cbn [snd].
      unfold finally. now rewrite Hclose.
  - intros n Hclose Hon Hgoto.
    rewrite (fetch_outcome w c env pg rl T Hlim Hinit Hpage Hclose).
    unfold visit. now rewrite Hon, Hgoto.
Qed.

(** A fetch that finds a link and then fails to close its page. *)
Definition env_close_fails : fetch_env :=
  mkEnv 0 0 (Ok tt) (Ok tt) (Ok link_page) (Ok tt) (Ok tt) [] [] []
        (Raise (PyException "Error")).

Lemma close_failure_replaces_outcome_witness :
  snd (visit 15 env_close_fails link_page)
    = Ok (Some "https://site.example/download/clip.mp4") /\
  outcome (fetch_and_extract fresh_world fresh_client env_close_fails)
    = Raise (PyException "Error").
Proof.
  split; [reflexivity |].
  assert (Hlim : Limiter.wait_for_request (rate_limiter fresh_client)
                   (limiter_clock fresh_world + idle env_close_fails)
                   (lag env_close_fails)
                 = Ok (Limiter.mkRateLimiter 5 10 [0%Q], 0%Q))
    by (vm_compute; reflexivity).
  assert (Hinit : initialized fresh_client = true \/
                  (launch env_close_fails = Ok tt /\
                   new_context env_close_fails = Ok tt))
    by (right; split; reflexivity).
  exact (proj1 (close_failure_replaces_outcome fresh_world fresh_client
                  env_close_fails link_page _ _ Hlim Hinit eq_refl)
           (PyException "Error") eq_refl).
Defined.

(** X15. On a client created with a cap of zero or less, the first fetch
    raises [ValueError] out of the rate limiter before anything else
    happens: no browser is launched, no page is opened, the client is left
    as it was, and [process_url] turns the failure into [None]. *)
Theorem nonpositive_cap_fails_fetch (w : world) (d M t : Z) (env : fetch_env) :
  (M <= 0)%Z ->
  fetch_and_extract w (Client.new d M t) env
    = (w, Client.new d M t, Raise (PyException "ValueError")) /\
  process_url w (Client.new d M t) env = (w, Client.new d M t, Ok None).
Proof.
  intros HM.
  assert (E : fetch_and_extract w (Client.new d M t) env
              = (w, Client.new d M t, Raise (PyException "ValueError"))).
  { unfold fetch_and_extract, Client.new. cbn [rate_limiter].
    unfold Limiter.wait_for_request, Limiter.new.
    cbn [Limiter.request_times filter List.length
         Limiter.max_requests_per_minute].
    assert (El : (M <=? Z.of_nat 0)%Z = true) by (apply Z.leb_le; cbn; lia).
    rewrite El. reflexivity. }
  split; [exact E |]. unfold process_url. now rewrite E.
Qed.

Lemma nonpositive_cap_fails_fetch_witness :
  process_url fresh_world (Client.new 5 0 15) env_goto_times_out
  = (fresh_world, Client.new 5 0 15, Ok None).
Proof.
  refine (proj2 (nonpositive_cap_fails_fetch fresh_world 5 0 15
                   env_goto_times_out _)). lia.
Defined.

End FetchMore.

(** ** utils.py: retry and format_time *)

Module Retry.

Open Scope string_scope.
Open Scope list_scope.
Open Scope Q_scope.

(** What a call of the wrapper did: what it returned or raised, the sleeps
    it took in order, and how often it called the wrapped function. *)
Record run (A : Type) : Type := mkRun {
  returned : result A;
  sleeps : list Q;
  calls_made : nat
}.
Arguments mkRun {A} returned sleeps calls_made.
Arguments returned {A} r.
Arguments sleeps {A} r.
Arguments calls_made {A} r.


(** [retry_delay * (2 ** attempt)] *)
Definition wait_time (retry_delay : Q) (attempt : nat) : Q :=
  retry_delay * inject_Z (2 ^ Z.of_nat attempt).

(** The sleep between two attempts: [asyncio.sleep] takes any duration (a
    negative one is no wait), [time.sleep] raises [ValueError] on a negative
    one. *)
Definition sleep (coroutine : bool) (duration : Q) : result unit :=
  if coroutine then Ok tt
  else if Qle_bool 0 duration then Ok tt
  else Raise (PyException "ValueError").

Section Wrapper.

Context {A : Type}.

(** [coroutine] is [asyncio.iscoroutinefunction(func)], which selects
    [async_wrapper] or [sync_wrapper]; [exceptions] is the test
    [isinstance(e, exceptions)]; [func k] is what the wrapped function does
    when it is called for the [k]-th time, counting from 0 (the arguments
    are the same every time, its surroundings may not be). *)
Variable coroutine : bool.
Variable exceptions : exn -> bool.
Variable max_retries : Z.
Variable retry_delay : Q.
Variable func : nat -> result A.

(** The [for attempt in range(max_retries + 1)] loop with [remaining]
    iterations to go, and the [raise last_exception] after it.  What the
    sleep raises is raised inside the [except] block and leaves the
    wrapper. *)
Fixpoint retry_loop (remaining attempt : nat) (last_exception : option exn)
         (slept : list Q) : run A :=
  match remaining with
  | O =>
      mkRun match last_exception with
            | Some e => Raise e
            | None => Raise (PyException "TypeError")
            end
            slept attempt
  | S remaining' =>
      match func attempt with
      | Ok a => mkRun (Ok a) slept (S attempt)
      | Raise e =>
          if exceptions e then
            if (Z.of_nat attempt <? max_retries)%Z then
              match sleep coroutine (wait_time retry_delay attempt) with
              | Ok _ =>
                  retry_loop remaining' (S attempt) (Some e)
                             (slept ++ [wait_time retry_delay attempt])
              | Raise e' => mkRun (Raise e') slept (S attempt)
              end
            else retry_loop remaining' (S attempt) (Some e) slept
          else mkRun (Raise e) slept (S attempt)
      end
  end.

(** [sync_wrapper] and [async_wrapper]: the same loop. *)
Definition wrapper : run A :=
  retry_loop (Z.to_nat (max_retries + 1)) 0 None [].

End Wrapper.



End Retry.

Module RetryFacts.

Import Retry.
Open Scope string_scope.
Open Scope list_scope.
Open Scope Q_scope.



Section Wrapper.

Context {A : Type}.
Variable coroutine : bool.
Variable exceptions : exn -> bool.
Variable max_retries : Z.
Variable retry_delay : Q.
Variable func : nat -> result A.

Hypothesis sleeps_well : coroutine = true \/ 0 <= retry_delay.




End Wrapper.













Lemma retry_loop_bounds {A : Type} (coroutine : bool) (exceptions : exn -> bool)
      (max_retries : Z) (retry_delay : Q) (func : nat -> result A)
      (remaining : nat) :
  forall attempt last slept,
    (Z.of_nat (List.length slept)
       <= Z.max 0 (Z.min (Z.of_nat attempt) max_retries))%Z ->
    let r := retry_loop coroutine exceptions max_retries retry_delay func
                        remaining attempt last slept in
    (calls_made r <= attempt + remaining)%nat /\
    (Z.of_nat (List.length (sleeps r)) <= Z.max 0 max_retries)%Z.
Proof.
  induction remaining as [|m IH]; intros attempt last slept Hs;
    cbn [retry_loop].
  - cbn. split; lia.
  - destruct (func attempt) as [a|e].
    + cbn. split; lia.
    + destruct (exceptions e).
      * destruct (Z.of_nat attempt <? max_retries)%Z eqn:Elt.
        -- apply Z.ltb_lt in Elt.
           destruct (sleep coroutine (wait_time retry_delay attempt)).
           ++ destruct (IH (S attempt) (Some e)
                          (slept ++ [wait_time retry_delay attempt]))
                as [H1 H2].
              { rewrite length_app. cbn [List.length]. lia. }
              split; [lia | exact H2].
           ++ cbn. split; lia.
        -- apply Z.ltb_ge in Elt.
           destruct (IH (S attempt) (Some e) slept) as [H1 H2]; [lia |].
           split; [lia | exact H2].
      * cbn. split; lia.
Qed.

(** X19. Whatever the wrapped function does, the wrapper calls it at most
    [max_retries]+1 times and sleeps at most [max_retries] times. *)
Theorem retry_effort_is_bounded {A : Type} (coroutine : bool)
        (exceptions : exn -> bool) (max_retries : Z) (retry_delay : Q)
        (func : nat -> result A) :
  (Z.of_nat (calls_made
               (wrapper coroutine exceptions max_retries retry_delay func))
     <= Z.max 0 (max_retries + 1))%Z /\
  (Z.of_nat (List.length
               (sleeps (wrapper coroutine exceptions max_retries retry_delay
                                func)))
     <= Z.max 0 max_retries)%Z.
Proof.
  unfold wrapper.
  destruct (retry_loop_bounds coroutine exceptions max_retries retry_delay func
              (Z.to_nat (max_retries + 1)) 0 None []) as [H1 H2].
  - cbn. lia.
  - split; [lia | exact H2].
Qed.

End RetryFacts.

Module Format.

Open Scope string_scope.
Open Scope Z_scope.

(** [int(x)] of a float: the fraction is cut off, towards zero. *)
Definition int_of_float (x : Q) : Z := Z.quot (Qnum x) (Zpos (Qden x)).

(** [divmod(a, b)] on integers: floor division and its remainder. *)
Definition divmod (a b : Z) : Z * Z := (a / b, a mod b).

(** [str(n)] of an integer, as an f-string renders it. *)
Definition str (n : Z) : string := NilZero.string_of_int (Z.to_int n).

(** [format_time(seconds)] *)
Definition format_time (seconds : Q) : string :=
  let '(minutes, seconds) := divmod (int_of_float seconds) 60 in
  let '(hours, minutes) := divmod minutes 60 in
  if 0 <? hours then
    str hours ++ "h " ++ str minutes ++ "m " ++ str seconds ++ "s"
  else if 0 <? minutes then
    str minutes ++ "m " ++ str seconds ++ "s"
  else
    str seconds ++ "s".

End Format.

Module FormatFacts.

Import Format.
Open Scope string_scope.
Open Scope Z_scope.

Lemma format_time_unfold (x : Q) :
  format_time x
  = let n := int_of_float x in
    if 0 <? n / 60 / 60 then
      str (n / 60 / 60) ++ "h " ++ str ((n / 60) mod 60) ++ "m "
          ++ str (n mod 60) ++ "s"
    else if 0 <? (n / 60) mod 60 then
      str ((n / 60) mod 60) ++ "m " ++ str (n mod 60) ++ "s"
    else str (n mod 60) ++ "s".
Proof. reflexivity. Qed.

(** X20. For a duration of [n] whole seconds, [n] not negative,
    [format_time] shows [n / 3600] hours, [(n / 60) mod 60] minutes and
    [n mod 60] seconds, which add up to [n]; the hours are left out below
    one hour and the minutes too below one minute. *)
Theorem format_time_nonnegative (x : Q) :
  0 <= int_of_float x ->
  let n := int_of_float x in
  format_time x
  = (if 3600 <=? n then
       str (n / 3600) ++ "h " ++ str ((n / 60) mod 60) ++ "m "
           ++ str (n mod 60) ++ "s"
     else if 60 <=? n then str (n / 60) ++ "m " ++ str (n mod 60) ++ "s"
     else str n ++ "s") /\
  (n / 3600) * 3600 + ((n / 60) mod 60) * 60 + n mod 60 = n /\
  0 <= (n / 60) mod 60 < 60 /\ 0 <= n mod 60 < 60.
Proof.
  intros Hn n. rewrite format_time_unfold. fold n.
  assert (Hh : n / 60 / 60 = n / 3600)
    by (rewrite Z.div_div by lia; reflexivity).
  cbv zeta. rewrite Hh.
  split; [| split; [| split]];
    try (subst n; Z.div_mod_to_equations; lia).
  destruct (3600 <=? n) eqn:E1.
  - apply Z.leb_le in E1.
    assert (E : (0 <? n / 3600) = true)
      by (apply Z.ltb_lt; Z.div_mod_to_equations; lia).
    now rewrite E.
  - apply Z.leb_gt in E1.
    assert (E : (0 <? n / 3600) = false)
      by (apply Z.ltb_ge; Z.div_mod_to_equations; lia).
    rewrite E.
    assert (Em : (n / 60) mod 60 = n / 60)
      by (apply Z.mod_small; Z.div_mod_to_equations; lia).
    rewrite Em. destruct (60 <=? n) eqn:E2.
    + apply Z.leb_le in E2.
      assert (E' : (0 <? n / 60) = true)
        by (apply Z.ltb_lt; Z.div_mod_to_equations; lia).
      now rewrite E'.
    + apply Z.leb_gt in E2.
      assert (E' : (0 <? n / 60) = false)
        by (apply Z.ltb_ge; Z.div_mod_to_equations; lia).
      rewrite E'. now rewrite Z.mod_small by lia.
Qed.

Lemma format_time_nonnegative_witness :
  format_time (7325 # 1) = "2h 2m 5s" /\
  format_time (305 # 2) = "2m 32s" /\
  format_time (59 # 1) = "59s".
Proof.
  pose proof (format_time_nonnegative (7325 # 1)) as H1.
  pose proof (format_time_nonnegative (305 # 2)) as H2.
  pose proof (format_time_nonnegative (59 # 1)) as H3.
  split; [| split].
  - refine (proj1 (H1 _)). vm_compute. discriminate.
  - refine (proj1 (H2 _)). vm_compute. discriminate.
  - refine (proj1 (H3 _)). vm_compute. discriminate.
Defined.

(** X21. A negative duration is not shown as one: the hours are dropped and
    the rest wraps around, so that [format_time] gives for [n] < 0 what it
    gives for [n mod 3600]; one second before zero reads "59m 59s". *)
Theorem format_time_negative_wraps (x : Q) :
  int_of_float x < 0 ->
  format_time x = format_time (inject_Z (int_of_float x mod 3600)) /\
  0 <= int_of_float x mod 3600 < 3600.
Proof.
  intros Hn. set (n := int_of_float x) in *.
  split; [| Z.div_mod_to_equations; lia].
  rewrite !format_time_unfold. fold n.
  assert (Ei : int_of_float (inject_Z (n mod 3600)) = n mod 3600).
  { unfold int_of_float, inject_Z. cbn [Qnum Qden]. apply Z.quot_1_r. }
  rewrite Ei. cbv zeta.
  assert (E1 : (0 <? n / 60 / 60) = false).
  { apply Z.ltb_ge. Z.div_mod_to_equations. lia. }
  assert (E2 : (0 <? n mod 3600 / 60 / 60) = false).
  { apply Z.ltb_ge. Z.div_mod_to_equations. lia. }
  assert (E3 : (n mod 3600 / 60) mod 60 = (n / 60) mod 60).
  { Z.div_mod_to_equations. lia. }
  assert (E4 : (n mod 3600) mod 60 = n mod 60).
  { Z.div_mod_to_equations. lia. }
  now rewrite E1, E2, E3, E4.
Qed.

Lemma format_time_negative_wraps_witness :
  format_time (-1 # 1) = "59m 59s".
Proof.
  transitivity (format_time (inject_Z (int_of_float (-1 # 1) mod 3600))).
  - refine (proj1 (format_time_negative_wraps (-1 # 1) _)). reflexivity.
  - reflexivity.
Defined.

End FormatFacts.

(** ** main.py: the list of URLs and the end of a run *)

Module Urls.

Import PyStr Utils.
Open Scope string_scope.
Open Scope list_scope.

(** [c.isspace()] for a character: a character of the model stands for a
    code point below 256, of which Python takes these for whitespace. *)
Definition is_space (c : ascii) : bool :=
  let n := nat_of_ascii c in
  ((9 <=? n)%nat && (n <=? 13)%nat) || ((28 <=? n)%nat && (n <=? 32)%nat) ||
  (n =? 133)%nat || (n =? 160)%nat.

(** [s.lstrip()], [s.rstrip()], [s.strip()] *)
Fixpoint lstrip (s : string) : string :=
  match s with
  | EmptyString => EmptyString
  | String c s' => if is_space c then lstrip s' else s
  end.

Fixpoint rstrip (s : string) : string :=
  match s with
  | EmptyString => EmptyString
  | String c s' =>
      match rstrip s' with
      | EmptyString => if is_space c then EmptyString else String c EmptyString
      | r => String c r
      end
  end.

Definition strip (s : string) : string := lstrip (rstrip s).

(** [s.split(sep)] for a separator of one character: the pieces between the
    separators, empty pieces included; never an empty list. *)
Fixpoint split (sep : ascii) (s : string) : list string :=
  match s with
  | EmptyString => [EmptyString]
  | String c s' =>
      if Ascii.eqb c sep then EmptyString :: split sep s'
      else match split sep s' with
           | piece :: pieces => String c piece :: pieces
           | [] => [String c EmptyString]
           end
  end.

(** [[x.strip() for x in items if x.strip()]] *)
Fixpoint stripped_entries (items : list string) : list string :=
  match items with
  | [] => []
  | x :: rest =>
      if truthy (strip x) then strip x :: stripped_entries rest
      else stripped_entries rest
  end.

(** [load_urls_from_file(file_path)]: [file] is [None] when there is no file
    at the path, otherwise the lines of the file as iterating over it yields
    them. *)
Definition load_urls_from_file (file : option (list string)) : result (list string) :=
  match file with
  | None => Raise (PyException "FileNotFoundError")
  | Some lines => Ok (stripped_entries lines)
  end.

(** [[url.strip() for url in args.urls.split(",") if url.strip()]] in [main] *)
Definition urls_from_argument (urls : string) : list string :=
  stripped_entries (split "," urls).


End Urls.

Module UrlsFacts.

Import PyStr Utils UtilsFacts Urls.
Open Scope list_scope.
Open Scope string_scope.

(** *** Stripping *)

Definition starts_clean (s : string) : bool :=
  match s with
  | EmptyString => true
  | String c _ => negb (is_space c)
  end.

Fixpoint ends_clean (s : string) : bool :=
  match s with
  | EmptyString => true
  | String c EmptyString => negb (is_space c)
  | String _ s' => ends_clean s'
  end.

Lemma lstrip_starts_clean (s : string) : starts_clean (lstrip s) = true.
Proof.
  induction s as [|c s IH]; cbn [lstrip]; [reflexivity |].
  destruct (is_space c) eqn:E; [exact IH | cbn; now rewrite E].
Qed.

Lemma lstrip_id (s : string) : starts_clean s = true -> lstrip s = s.
Proof.
  destruct s as [|c s]; cbn; [reflexivity |].
  now destruct (is_space c).
Qed.

Lemma rstrip_cons (c : ascii) (s : string) :
  rstrip (String c s)
  = match rstrip s with
    | EmptyString => if is_space c then EmptyString else String c EmptyString
    | r => String c r
    end.
Proof. reflexivity. Qed.

Lemma rstrip_ends_clean (s : string) : ends_clean (rstrip s) = true.
Proof.
  induction s as [|c s IH]; [reflexivity |].
  rewrite rstrip_cons. destruct (rstrip s) as [|c' r].
  - destruct (is_space c) eqn:E; cbn; [reflexivity | now rewrite E].
  - exact IH.
Qed.

Lemma rstrip_id (s : string) : ends_clean s = true -> rstrip s = s.
Proof.
  induction s as [|c s IH]; [reflexivity |].
  intros H. rewrite rstrip_cons. destruct s as [|c' s'].
  - cbn in *. now destruct (is_space c).
  - rewrite IH by exact H. reflexivity.
Qed.

Lemma lstrip_ends_clean (s : string) :
  ends_clean s = true -> ends_clean (lstrip s) = true.
Proof.
  induction s as [|c s IH]; [reflexivity |].
  intros H. cbn [lstrip]. destruct (is_space c) eqn:E; [| exact H].
  apply IH. destruct s as [|c' s']; [reflexivity | exact H].
Qed.

Lemma strip_clean (s : string) :
  starts_clean (strip s) = true /\ ends_clean (strip s) = true.
Proof.
  unfold strip. split; [apply lstrip_starts_clean |].
  apply lstrip_ends_clean, rstrip_ends_clean.
Qed.

Lemma strip_id (s : string) :
  starts_clean s = true -> ends_clean s = true -> strip s = s.
Proof.
  intros H1 H2. unfold strip. rewrite (rstrip_id s H2). now apply lstrip_id.
Qed.

Lemma strip_idempotent (s : string) : strip (strip s) = strip s.
Proof. destruct (strip_clean s). now apply strip_id. Qed.

(** *** Characters and pieces *)

Fixpoint has_char (c : ascii) (s : string) : bool :=
  match s with
  | EmptyString => false
  | String c' s' => Ascii.eqb c' c || has_char c s'
  end.

Lemma has_char_lstrip (c : ascii) (s : string) :
  has_char c s = false -> has_char c (lstrip s) = false.
Proof.
  induction s as [|c' s IH]; [reflexivity |].
  cbn [lstrip]. destruct (is_space c'); [| trivial].
  cbn [has_char]. intros H. apply orb_false_iff in H. now apply IH.
Qed.

Lemma has_char_rstrip (c : ascii) (s : string) :
  has_char c s = false -> has_char c (rstrip s) = false.
Proof.
  induction s as [|c' s IH]; [reflexivity |].
  cbn [has_char]. intros H. apply orb_false_iff in H. destruct H as [H1 H2].
  rewrite rstrip_cons. specialize (IH H2). destruct (rstrip s) as [|c'' r].
  - destruct (is_space c'); cbn; [reflexivity | now rewrite H1].
  - cbn [has_char] in *. now rewrite H1, IH.
Qed.

Lemma has_char_strip (c : ascii) (s : string) :
  has_char c s = false -> has_char c (strip s) = false.
Proof. intros H. now apply has_char_lstrip, has_char_rstrip. Qed.

Lemma has_char_Substring (c : ascii) (s : string) :
  has_char c s = false -> ~ Substring (String c EmptyString) s.
Proof.
  intros H [pre [post E]]. subst s. induction pre as [|c' pre IH].
  - cbn in H. now rewrite Ascii.eqb_refl in H.
  - cbn [append has_char] in H. apply orb_false_iff in H. now apply IH.
Qed.

Lemma split_cons (sep c : ascii) (s : string) :
  split sep (String c s)
  = if Ascii.eqb c sep then EmptyString :: split sep s
    else match split sep s with
         | piece :: pieces => String c piece :: pieces
         | [] => [String c EmptyString]
         end.
Proof. reflexivity. Qed.

Lemma split_pieces_clean (sep : ascii) (s : string) :
  forall piece, In piece (split sep s) -> has_char sep piece = false.
Proof.
  induction s as [|c s IH]; intros piece.
  - intros [<- | []]. reflexivity.
  - rewrite split_cons. destruct (Ascii.eqb c sep) eqn:E.
    + intros [<- | H]; [reflexivity | now apply IH].
    + destruct (split sep s) as [|p ps].
      * intros [<- | []]. cbn. now rewrite E.
      * intros [<- | H].
        -- cbn [has_char]. rewrite E. apply IH. now left.
        -- apply IH. now right.
Qed.

Lemma split_first_prefix (sep : ascii) (s : string) :
  forall p ps, split sep s = p :: ps -> exists post, s = p ++ post.
Proof.
  induction s as [|c s IH]; intros p ps Es.
  - cbn in Es. injection Es as <- _. now exists "".
  - rewrite split_cons in Es. destruct (Ascii.eqb c sep).
    + injection Es as <- _. now exists (String c s).
    + destruct (split sep s) as [|q qs] eqn:Eq.
      * injection Es as <- _. destruct s as [|a s]; [now exists "" |].
        rewrite split_cons in Eq.
        destruct (Ascii.eqb a sep); [discriminate |].
        destruct (split sep s); discriminate.
      * injection Es as <- _.
        destruct (IH q qs eq_refl) as [post ->]. now exists post.
Qed.

Lemma split_pieces_Substring (sep : ascii) (s : string) :
  forall piece, In piece (split sep s) -> Substring piece s.
Proof.
  induction s as [|c s IH]; intros piece.
  - intros [<- | []]. now exists "", "".
  - rewrite split_cons. destruct (Ascii.eqb c sep) eqn:E.
    + intros [<- | H].
      * now exists "", (String c s).
      * destruct (IH piece H) as [pre [post ->]]. now exists (String c pre), post.
    + destruct (split sep s) as [|p ps] eqn:Es.
      * intros [<- | []]. exists "", s. reflexivity.
      * intros [<- | H].
        -- destruct (split_first_prefix sep s p ps Es) as [post' ->].
           exists "", post'. reflexivity.
        -- destruct (IH piece (or_intror H)) as [pre [post ->]].
           now exists (String c pre), post.
Qed.

Lemma lstrip_suffix (s : string) : exists pre, s = pre ++ lstrip s.
Proof.
  induction s as [|c s [pre IH]]; [now exists "" |].
  cbn [lstrip]. destruct (is_space c).
  - exists (String c pre). cbn. now rewrite <- IH.
  - now exists "".
Qed.

Lemma append_nil_r (s : string) : s ++ "" = s.
Proof. induction s as [|c s IH]; cbn; [reflexivity | now rewrite IH]. Qed.

Lemma rstrip_prefix (s : string) : exists post, s = rstrip s ++ post.
Proof.
  induction s as [|c s [post IH]]; [now exists "" |].
  rewrite rstrip_cons. destruct (rstrip s) as [|c' r].
  - destruct (is_space c).
    + now exists (String c s).
    + exists s. reflexivity.
  - exists post. cbn [append] in *. now rewrite <- IH.
Qed.

Lemma strip_Substring (s : string) : Substring (strip s) s.
Proof.
  unfold strip. destruct (rstrip_prefix s) as [post E].
  destruct (lstrip_suffix (rstrip s)) as [pre E'].
  exists pre, post. rewrite E at 1. rewrite E' at 1.
  clear. induction pre as [|c pre IH]; cbn; [reflexivity | now rewrite IH].
Qed.

Lemma stripped_entries_In (items : list string) (u : string) :
  In u (stripped_entries items) <->
  u <> "" /\ exists x, In x items /\ strip x = u.
Proof.
  induction items as [|x rest IH]; cbn [stripped_entries In].
  - split; [tauto | intros [_ [x [[] _]]]].
  - destruct (truthy (strip x)) eqn:Et.
    + cbn [In]. rewrite IH. apply truthy_nonempty in Et. split.
      * intros [<- | [Hu [y [Hy Hs]]]]; (split; [assumption |]).
        -- exists x. auto.
        -- exists y. auto.
      * intros [Hu [y [[<- | Hy] Hs]]]; [now left |].
        right. split; [exact Hu |]. now exists y.
    + rewrite IH. split.
      * intros [Hu [y [Hy Hs]]]. split; [exact Hu |]. exists y. auto.
      * intros [Hu [y [[<- | Hy] Hs]]].
        -- subst u. apply truthy_nonempty in Hu. congruence.
        -- split; [exact Hu |]. now exists y.
Qed.

(** X22. The URLs taken from the [--urls] argument and from the input file
    are trimmed and never empty.  An entry from the argument contains no
    comma and occurs in the argument; an entry from the file is the trimmed
    form of one of its lines; a line or piece that is blank contributes
    nothing, and every other one contributes its trimmed form. *)
Theorem url_entries_are_trimmed :
  (forall urls u, In u (urls_from_argument urls) ->
     u <> "" /\ strip u = u /\ ~ Substring "," u /\ Substring u urls) /\
  (forall lines u, In u (stripped_entries lines) <->
     u <> "" /\ exists line, In line lines /\ strip line = u) /\
  (forall lines listed u, load_urls_from_file (Some lines) = Ok listed ->
     In u listed -> u <> "" /\ strip u = u) /\
  load_urls_from_file None = Raise (PyException "FileNotFoundError").
Proof.
  split; [| split; [| split]].
  - intros urls u H. apply stripped_entries_In in H.
    destruct H as [Hu [x [Hx Hs]]]. subst u.
    split; [exact Hu |]. split; [apply strip_idempotent |]. split.
    + apply has_char_Substring, has_char_strip.
      now apply (split_pieces_clean "," urls).
    + apply (ClientMore.Substring_trans (strip x) x urls).
      * apply strip_Substring.
      * now apply (split_pieces_Substring ","%char urls).
  - exact stripped_entries_In.
  - intros lines listed u H Hin. injection H as <-.
    apply stripped_entries_In in Hin. destruct Hin as [Hu [x [_ <-]]].
    split; [exact Hu | apply strip_idempotent].
  - reflexivity.
Qed.

Definition urls_argument : string :=
  " https://a.example/x , ,https://b.example/y".

Lemma url_entries_are_trimmed_witness :
  urls_from_argument urls_argument
    = ["https://a.example/x"; "https://b.example/y"] /\
  strip "https://a.example/x" = "https://a.example/x" /\
  ~ Substring "," "https://a.example/x".
Proof.
  split; [reflexivity |].
  assert (Hin : In "https://a.example/x" (urls_from_argument urls_argument))
    by (now left).
  destruct (proj1 url_entries_are_trimmed urls_argument
              "https://a.example/x" Hin) as [_ [H2 [H3 _]]].
  split; [exact H2 | exact H3].
Defined.

Lemma split_no_sep (sep : ascii) (x : string) :
  has_char sep x = false -> split sep x = [x].
Proof.
  induction x as [|c x IH]; [reflexivity |].
  cbn [has_char]. intros H. apply orb_false_iff in H. destruct H as [H1 H2].
  rewrite split_cons, H1, (IH H2). reflexivity.
Qed.

Lemma split_app_sep (sep : ascii) (x rest : string) :
  has_char sep x = false ->
  split sep (x ++ String sep rest) = x :: split sep rest.
Proof.
  induction x as [|c x IH]; cbn [append].
  - intros _. rewrite split_cons, Ascii.eqb_refl. reflexivity.
  - cbn [has_char]. intros H. apply orb_false_iff in H. destruct H as [H1 H2].
    rewrite split_cons, H1, (IH H2). reflexivity.
Qed.

Lemma split_concat (sep : ascii) (l : list string) :
  l <> [] ->
  (forall x, In x l -> has_char sep x = false) ->
  split sep (String.concat (String sep "") l) = l.
Proof.
  induction l as [|x l IH]; [congruence |]. intros _ H.
  destruct l as [|y l].
  - cbn [String.concat]. apply split_no_sep. apply H. now left.
  - change (String.concat (String sep "") (x :: y :: l))
      with (x ++ String sep (String.concat (String sep "") (y :: l))).
    rewrite split_app_sep by (apply H; now left).
    rewrite IH; [reflexivity | discriminate |].
    intros z Hz. apply H. now right.
Qed.

Lemma stripped_entries_id (l : list string) :
  (forall x, In x l -> x <> "" /\ strip x = x) -> stripped_entries l = l.
Proof.
  induction l as [|x l IH]; intros H; [reflexivity |].
  cbn [stripped_entries]. destruct (H x (or_introl eq_refl)) as [Hx Hs].
  rewrite Hs. apply truthy_nonempty in Hx. rewrite Hx.
  rewrite IH; [reflexivity |]. intros y Hy. apply H. now right.
Qed.

(** X23. The list read from the [--urls] argument is in normal form: joined
    with commas and read again it comes back unchanged. *)
Theorem urls_argument_round_trip (urls : string) :
  urls_from_argument (String.concat "," (urls_from_argument urls))
  = urls_from_argument urls.
Proof.
  assert (H : forall u, In u (urls_from_argument urls) ->
                u <> "" /\ strip u = u /\ has_char "," u = false).
  { intros u Hu. apply stripped_entries_In in Hu.
    destruct Hu as [Hne [x [Hx <-]]].
    split; [exact Hne |]. split; [apply strip_idempotent |].
    apply has_char_strip. now apply (split_pieces_clean "," urls). }
  destruct (urls_from_argument urls) as [|u l] eqn:E; [reflexivity |].
  unfold urls_from_argument at 1.
  rewrite split_concat; [| discriminate | intros x Hx; now apply H].
  apply stripped_entries_id. intros x Hx. destruct (H x Hx) as [? [? _]]. auto.
Qed.

(** *** The end of a run *)







End UrlsFacts.

(** ** Further properties of config.py, and its use in main.py *)

Module ConfigMore.

Import PyStr Config ConfigFacts.
Open Scope string_scope.
Open Scope list_scope.
Open Scope py_scope.

(** [getattr(config, name)] for the name of a field. *)
Definition get_field (c : Config) (name : string) : option yaml :=
  if String.eqb name "delay_between_requests" then Some (delay_between_requests c)
  else if String.eqb name "max_requests_per_minute" then
    Some (max_requests_per_minute c)
  else if String.eqb name "timeout" then Some (timeout c)
  else if String.eqb name "output_dir" then Some (output_dir c)
  else if String.eqb name "idm_path" then Some (idm_path c)
  else if String.eqb name "download_dir" then Some (download_dir c)
  else if String.eqb name "download_link_selector" then
    Some (download_link_selector c)
  else if String.eqb name "xhr_patterns" then Some (xhr_patterns c)
  else None.

(** [config.__dict__.items()]: the fields in the order of their declaration,
    then the attributes added to the instance. *)
Definition config_dict (c : Config) : list (yaml * yaml) :=
  [(YStr "delay_between_requests", delay_between_requests c);
   (YStr "max_requests_per_minute", max_requests_per_minute c);
   (YStr "timeout", timeout c);
   (YStr "output_dir", output_dir c);
   (YStr "idm_path", idm_path c);
   (YStr "download_dir", download_dir c);
   (YStr "download_link_selector", download_link_selector c);
   (YStr "xhr_patterns", xhr_patterns c)]
  ++ map (fun kv => (YStr (fst kv), snd kv)) (extra c).

(** The mapping as [yaml.dump] writes it for a configuration without added
    attributes, and as [yaml.safe_load] reads it back: [dump] sorts the keys
    unless told otherwise. *)
Definition dumped (c : Config) : yaml :=
  YMap [(YStr "delay_between_requests", delay_between_requests c);
        (YStr "download_dir", download_dir c);
        (YStr "download_link_selector", download_link_selector c);
        (YStr "idm_path", idm_path c);
        (YStr "max_requests_per_minute", max_requests_per_minute c);
        (YStr "output_dir", output_dir c);
        (YStr "timeout", timeout c);
        (YStr "xhr_patterns", xhr_patterns c)].

(** [write_default_config(output_path)], as the contents of the file it
    writes. *)
Definition write_default_config : yaml := dumped default_config.

(** The value the mapping gives last for a key. *)
Fixpoint last_value (entries : list (yaml * yaml)) (name : string) : option yaml :=
  match entries with
  | [] => None
  | (key, value) :: rest =>
      match last_value rest name with
      | Some v => Some v
      | None =>
          match key with
          | YStr k => if String.eqb k name then Some value else None
          | _ => None
          end
      end
  end.

(** The options of the command line that [main] copies into the
    configuration. *)
Record cli_args : Type := mkArgs {
  delay : Z;
  max_per_minute : Z;
  arg_timeout : Z;
  arg_output_dir : string;
  arg_idm_path : string;
  arg_download_dir : string
}.

(** The start of [main]: the defaults or the loaded file, then the six
    assignments from the command line.  [config_file] is [None] when no
    [--config] is given. *)
Definition main_config (class_attr : string -> option (yaml -> result unit))
           (config_file : option (option (result yaml))) (args : cli_args)
  : result Config :=
  config <- match config_file with
            | Some file => load_config class_attr file
            | None => Ok default_config
            end ;;
  Ok (mkConfig (YInt (delay args)) (YInt (max_per_minute args))
               (YInt (arg_timeout args)) (YStr (arg_output_dir args))
               (YStr (arg_idm_path args)) (YStr (arg_download_dir args))
               (download_link_selector config) (xhr_patterns config)
               (extra config)).

End ConfigMore.

Module ConfigMoreFacts.

Import PyStr Config ConfigFacts ConfigMore.
Open Scope string_scope.
Open Scope list_scope.

Ltac each_field H :=
  unfold field_names in H; cbn [In] in H;
  repeat (destruct H as [H | H]; [subst |]); try contradiction.

Lemma is_field_In (name : string) : is_field name = true <-> In name field_names.
Proof.
  unfold is_field. rewrite existsb_exists. split.
  - intros [x [Hx E]]. apply String.eqb_eq in E. now subst.
  - intros H. exists name. split; [exact H | apply String.eqb_refl].
Qed.

Lemma get_set_same (c : Config) (name : string) (v : yaml) :
  In name field_names -> get_field (set_field c name v) name = Some v.
Proof. intros H. each_field H; reflexivity. Qed.

Lemma get_set_other (c : Config) (name other : string) (v : yaml) :
  In name field_names -> In other field_names -> name <> other ->
  get_field (set_field c name v) other = get_field c other.
Proof.
  intros H H' Hne. each_field H; each_field H'; solve [reflexivity | congruence].
Qed.

Lemma extra_set_field (c : Config) (name : string) (v : yaml) :
  extra (set_field c name v) = extra c.
Proof.
  unfold set_field.
  repeat match goal with
         | |- context [if ?b then _ else _] => destruct b
         end; reflexivity.
Qed.

Section Load.

Variable class_attr : string -> option (yaml -> result unit).

Definition keys_are_fields (entries : list (yaml * yaml)) : Prop :=
  forall key value, In (key, value) entries ->
    exists name, key = YStr name /\ In name field_names.

Lemma update_loop_fields (entries : list (yaml * yaml)) :
  keys_are_fields entries ->
  forall c, exists c',
    update_loop class_attr c entries = Ok c' /\
    extra c' = extra c /\
    forall name, In name field_names ->
      get_field c' name
      = match last_value entries name with
        | Some v => Some v
        | None => get_field c name
        end.
Proof.
  induction entries as [|[key value] rest IH]; intros Hk c.
  - exists c. repeat split; reflexivity.
  - destruct (Hk key value (or_introl eq_refl)) as [k [-> Hin]].
    assert (Hrest : keys_are_fields rest).
    { intros k' v' H. apply (Hk k' v'). now right. }
    destruct (IH Hrest (set_field c k value)) as [c' [E [Hex Hget]]].
    exists c'. cbn [update_loop hasattr setattr bind].
    rewrite (proj2 (is_field_In k) Hin). cbn [orb bind]. split; [exact E |].
    split; [now rewrite Hex, extra_set_field |].
    intros name Hname. rewrite (Hget name Hname). cbn [last_value].
    destruct (last_value rest name); [reflexivity |].
    destruct (String.eqb k name) eqn:Ek.
    + apply String.eqb_eq in Ek. subst. now apply get_set_same.
    + apply String.eqb_neq in Ek. now apply get_set_other.
Qed.

End Load.

Lemma config_by_fields (c1 c2 : Config) :
  extra c1 = extra c2 ->
  (forall name, In name field_names -> get_field c1 name = get_field c2 name) ->
  c1 = c2.
Proof.
  intros He H. destruct c1, c2. cbn in He. subst.
  pose proof (H "delay_between_requests") as H1.
  pose proof (H "max_requests_per_minute") as H2.
  pose proof (H "timeout") as H3.
  pose proof (H "output_dir") as H4.
  pose proof (H "idm_path") as H5.
  pose proof (H "download_dir") as H6.
  pose proof (H "download_link_selector") as H7.
  pose proof (H "xhr_patterns") as H8.
  cbn in H1, H2, H3, H4, H5, H6, H7, H8.
  f_equal;
    match goal with
    | |- ?a = ?b =>
        first [ assert (Some a = Some b) as X by (apply H1; tauto)
              | assert (Some a = Some b) as X by (apply H2; tauto)
              | assert (Some a = Some b) as X by (apply H3; tauto)
              | assert (Some a = Some b) as X by (apply H4; tauto)
              | assert (Some a = Some b) as X by (apply H5; tauto)
              | assert (Some a = Some b) as X by (apply H6; tauto)
              | assert (Some a = Some b) as X by (apply H7; tauto)
              | assert (Some a = Some b) as X by (apply H8; tauto) ];
        now injection X
    end.
Qed.

Lemma load_by_last_value
      (class_attr : string -> option (yaml -> result unit))
      (entries : list (yaml * yaml)) (c : Config) :
  keys_are_fields entries -> entries <> [] -> extra c = [] ->
  (forall name, In name field_names ->
     last_value entries name = get_field c name) ->
  load_config class_attr (Some (Ok (YMap entries))) = Ok c.
Proof.
  intros Hk Hne He Hl.
  destruct (update_loop_fields class_attr entries Hk default_config)
    as [c' [E [Hex Hget]]].
  destruct entries as [|e rest]; [congruence |].
  change (load_config class_attr (Some (Ok (YMap (e :: rest)))))
    with (update_loop class_attr default_config (e :: rest)).
  rewrite E. f_equal. apply config_by_fields.
  - now rewrite Hex, He.
  - intros name Hname. rewrite (Hget name Hname), (Hl name Hname).
    each_field Hname; reflexivity.
Qed.

(** X25. Loading what was written gives it back: for a configuration
    without added attributes, the mapping of its fields, in the order of
    [__dict__] or with the keys sorted as [yaml.dump] writes them, loads to
    that same configuration, whatever values the fields hold.  So the file
    that [write_default_config] writes loads to the defaults. *)
Theorem load_restores_written_config
        (class_attr : string -> option (yaml -> result unit)) (c : Config) :
  extra c = [] ->
  load_config class_attr (Some (Ok (dumped c))) = Ok c /\
  load_config class_attr (Some (Ok (YMap (config_dict c)))) = Ok c.
Proof.
  intros He. split.
  - apply load_by_last_value; [| discriminate | exact He |].
    + intros key value H. cbn [In] in H.
      repeat (destruct H as [H | H];
              [injection H as <- _; eexists; split; [reflexivity | cbn; tauto] |]).
      destruct H.
    + intros name H. each_field H; reflexivity.
  - apply load_by_last_value; [| | exact He |].
    + intros key value H. unfold config_dict in H. rewrite He in H.
      cbn [map app In] in H.
      repeat (destruct H as [H | H];
              [injection H as <- _; eexists; split; [reflexivity | cbn; tauto] |]).
      destruct H.
    + unfold config_dict. discriminate.
    + intros name H. unfold config_dict. rewrite He. each_field H; reflexivity.
Qed.

Lemma load_restores_written_config_witness :
  load_config declared_class_attr (Some (Ok write_default_config))
  = Ok default_config.
Proof.
  exact (proj1 (load_restores_written_config declared_class_attr default_config
                  eq_refl)).
Defined.

(** X26. When every key of the mapping is the name of a field, loading
    succeeds, and each field holds the value the mapping gives last for it,
    or its default when the mapping does not mention it.  No value is
    refused: the type of a value is not looked at. *)
Theorem load_overlays_fields
        (class_attr : string -> option (yaml -> result unit))
        (entries : list (yaml * yaml)) :
  keys_are_fields entries ->
  exists c,
    load_config class_attr (Some (Ok (YMap entries))) = Ok c /\
    extra c = [] /\
    forall name, In name field_names ->
      get_field c name
      = match last_value entries name with
        | Some v => Some v
        | None => get_field default_config name
        end.
Proof.
  intros Hk. destruct entries as [|e rest].
  - exists default_config. repeat split; reflexivity.
  - destruct (update_loop_fields class_attr (e :: rest) Hk default_config)
      as [c [E [Hex Hget]]].
    exists c. split; [exact E |]. split; [now rewrite Hex | exact Hget].
Qed.

Lemma load_overlays_fields_witness :
  exists c,
    load_config declared_class_attr
      (Some (Ok (YMap [(YStr "timeout", YStr "soon"); (YStr "timeout", YInt 30)])))
    = Ok c /\
    get_field c "timeout" = Some (YInt 30) /\
    get_field c "output_dir" = Some (YStr "./out").
Proof.
  destruct (load_overlays_fields declared_class_attr
              [(YStr "timeout", YStr "soon"); (YStr "timeout", YInt 30)])
    as [c [E [_ Hget]]].
  - intros key value [H | [H | []]]; injection H as <- _;
      exists "timeout"; (split; [reflexivity | cbn; tauto]).
  - exists c. split; [exact E |]. split.
    + apply (Hget "timeout"). cbn. tauto.
    + apply (Hget "output_dir"). cbn. tauto.
Defined.

Lemma update_loop_bad_key
      (class_attr : string -> option (yaml -> result unit))
      (entries : list (yaml * yaml)) (key value : yaml) :
  In (key, value) entries -> (forall name, key <> YStr name) ->
  forall c, exists e, update_loop class_attr c entries = Raise e.
Proof.
  intros Hin Hbad. induction entries as [|[k v] rest IH]; [destruct Hin |].
  intros c. cbn [update_loop].
  destruct Hin as [H | H].
  - injection H as -> ->. destruct key; try (eexists; reflexivity).
    now destruct (Hbad s).
  - destruct (hasattr class_attr k) as [[|]|e]; cbn [bind].
    + destruct (setattr class_attr c k v) as [c'|e]; cbn [bind].
      * now apply IH.
      * now exists e.
    + now apply IH.
    + now exists e.
Qed.

(** X27. How loading fails or falls back.  A missing file raises
    [FileNotFoundError] and a document that cannot be read or parsed raises
    what the parser raised; an empty document (nothing, an empty mapping or
    list, zero, the empty string) gives the defaults; any other document
    that is not a mapping raises [AttributeError]; and a mapping with a key
    that is not a string does not load, wherever the key stands. *)
Theorem load_config_failures
        (class_attr : string -> option (yaml -> result unit)) :
  load_config class_attr None = Raise (PyException "FileNotFoundError") /\
  (forall e, load_config class_attr (Some (Raise e)) = Raise e) /\
  (forall data, yaml_truthy data = false ->
     load_config class_attr (Some (Ok data)) = Ok default_config) /\
  (forall data, yaml_truthy data = true ->
     (forall entries, data <> YMap entries) ->
     load_config class_attr (Some (Ok data))
       = Raise (PyException "AttributeError")) /\
  (forall entries key value,
     In (key, value) entries -> (forall name, key <> YStr name) ->
     exists e, load_config class_attr (Some (Ok (YMap entries))) = Raise e).
Proof.
  split; [reflexivity |]. split; [reflexivity |]. split; [| split].
  - intros data H. cbn [load_config bind]. now rewrite H.
  - intros data H Hn. cbn [load_config bind]. rewrite H.
    destruct data; try reflexivity. now destruct (Hn entries).
  - intros entries key value Hin Hbad. cbn [load_config bind yaml_truthy].
    destruct entries as [|e rest]; [destruct Hin |]. cbn [items bind].
    now apply (update_loop_bad_key class_attr (e :: rest) key value).
Qed.

Lemma load_config_failures_witness :
  load_config declared_class_attr (Some (Ok (YSeq []))) = Ok default_config /\
  load_config declared_class_attr (Some (Ok (YStr "timeout: 30")))
    = Raise (PyException "AttributeError") /\
  exists e,
    load_config declared_class_attr
      (Some (Ok (YMap [(YStr "timeout", YInt 30); (YInt 5, YInt 1)]))) = Raise e.
Proof.
  destruct (load_config_failures declared_class_attr) as [_ [_ [H3 [H4 H5]]]].
  split; [apply H3; reflexivity |]. split.
  - apply H4; [reflexivity | discriminate].
  - apply (H5 _ (YInt 5) (YInt 1)); [cbn; tauto | discriminate].
Defined.

(** X28. Whatever the configuration file holds, the delay, the cap, the
    timeout, the output directory, the IDM path and the download directory
    that [main] goes on with are those of the command line (or its
    defaults): of a loaded file only the selector string and the pattern
    list survive.  A file that fails to load stops [main] before anything
    else. *)
Theorem command_line_overrides_file
        (class_attr : string -> option (yaml -> result unit))
        (config_file : option (option (result yaml))) (args : cli_args) :
  (forall cfg, main_config class_attr config_file args = Ok cfg ->
     delay_between_requests cfg = YInt (delay args) /\
     max_requests_per_minute cfg = YInt (max_per_minute args) /\
     timeout cfg = YInt (arg_timeout args) /\
     output_dir cfg = YStr (arg_output_dir args) /\
     idm_path cfg = YStr (arg_idm_path args) /\
     download_dir cfg = YStr (arg_download_dir args)) /\
  (forall file e, config_file = Some file ->
     load_config class_attr file = Raise e ->
     main_config class_attr config_file args = Raise e).
Proof.
  split.
  - intros cfg H. unfold main_config, bind in H.
    destruct (match config_file with
              | Some file => load_config class_attr file
              | None => Ok default_config
              end) as [c|e]; [| discriminate H].
    injection H as <-. repeat split.
  - intros file e -> H. unfold main_config. now rewrite H.
Qed.

Lemma command_line_overrides_file_witness :
  exists cfg,
    main_config declared_class_attr
      (Some (Some (Ok (YMap [(YStr "timeout", YInt 99)]))))
      (mkArgs 5 10 15 "./out" "IDMan.exe" "C:/Downloads") = Ok cfg /\
    timeout cfg = YInt 15.
Proof.
  eexists. split; [reflexivity |].
  refine (proj1 (proj2 (proj2
    (proj1 (command_line_overrides_file declared_class_attr
              (Some (Some (Ok (YMap [(YStr "timeout", YInt 99)]))))
              (mkArgs 5 10 15 "./out" "IDMan.exe" "C:/Downloads")) _ eq_refl)))).
Defined.

End ConfigMoreFacts.
